(** * treenav: a shallow embedding of the navigation engine

    The Rust sources live in [src/app.rs], [src/tree.rs], [src/state.rs],
    [src/size.rs] and [src/icons.rs].  Paths are modelled by their list of
    components below "/" ([PathBuf] equality in Rust compares components);
    OS strings (file names) are byte strings, i.e. Stdlib [string]s; Rust
    [char]s are Unicode scalar values, modelled as [N]. *)

From Stdlib Require Import Ascii String NArith Sorting.Sorted.
From stdpp Require Import base list gmap sets strings.

Open Scope N_scope.

(** ** Results: [std::io::Result] and friends *)

Inductive result (A E : Type) : Type :=
| Ok (a : A)
| Err (e : E).
Arguments Ok {A E} a.
Arguments Err {A E} e.

Definition rbind {A B E} (m : result A E) (k : A -> result B E) : result B E :=
  match m with Ok a => k a | Err e => Err e end.

Notation "x <- m ;; k" := (rbind m (fun x => k))
  (at level 100, m at next level, right associativity).

(** ** Characters *)

Definition char := N.

(** ASCII literal to Rust chars (only used to write concrete inputs). *)
Definition chars (s : string) : list char :=
  map (fun a => N_of_ascii a) (list_ascii_of_string s).

(** ** Paths *)

(** A [PathBuf], as its components below "/". *)
Definition path := list string.

(** [Path::file_name]: the last component; [None] for "/". *)
Definition file_name (p : path) : option string := last p.

(** ** Stable sorting: [slice::sort_by]

    Rust's [sort_by] is a stable sort; for a comparator that is a total
    preorder every stable sort yields the same list, so it is written here
    as a stable insertion sort: an element goes before the first element it
    is not greater than, and [sort_by cmp (x :: l)] inserts [x] into the
    sorted tail, so equal elements keep their order. *)
Fixpoint insert_by {A} (cmp : A -> A -> comparison) (x : A) (l : list A) : list A :=
  match l with
  | [] => [x]
  | y :: l' =>
      match cmp x y with
      | Gt => y :: insert_by cmp x l'
      | _ => x :: y :: l'
      end
  end.

Fixpoint sort_by {A} (cmp : A -> A -> comparison) (l : list A) : list A :=
  match l with
  | [] => []
  | x :: l' => insert_by cmp x (sort_by cmp l')
  end.

(** * Search index: [fuzzy_score] (src/app.rs, lines 14-40) *)
Module Fuzzy.

(** [let is_separator = c == '/' || c == '.' || c == '_' || c == '-' || c == ' '] *)
Definition is_separator (c : char) : bool :=
  (c =? 47) || (c =? 46) || (c =? 95) || (c =? 45) || (c =? 32).

(** The mutable locals of the loop. *)
Record scan := mkScan {
  score : N;               (* u16 *)
  needle_idx : nat;
  prev_match : bool;
  prev_was_separator : bool
}.

Definition init_scan : scan := mkScan 0 0 false true.

(** [score += ...] on a [u16]: written with the wrap-around of a release
    build (a debug build would panic; unreachable, the score is at most
    ten times the haystack length and file names are at most 255 bytes). *)
Definition u16_add (a b : N) : N := (a + b) mod 65536.

(** One iteration of [for c in haystack.chars()]. *)
Definition scan_char (needle : list char) (st : scan) (c : char) : scan :=
  let sep := is_separator c in
  match nth_error needle (needle_idx st) with
  | Some nc =>
      if (nc =? c)%N then
        mkScan (u16_add (score st)
                   (if prev_was_separator st then 10
                    else if prev_match st then 5 else 1))
               (S (needle_idx st)) true sep
      else mkScan (score st) (needle_idx st) false sep
  | None => mkScan (score st) (needle_idx st) false sep
  end.

Fixpoint scan_haystack (needle : list char) (st : scan) (h : list char) : scan :=
  match h with
  | [] => st
  | c :: h' => scan_haystack needle (scan_char needle st c) h'
  end.

Definition fuzzy_score (haystack : list char) (needle : list char) : option N :=
  match needle with
  | [] => Some 0
  | _ =>
      let st := scan_haystack needle init_scan haystack in
      if Nat.eqb (needle_idx st) (length needle) then Some (score st) else None
  end.

(** [update_search_matches] (src/app.rs, lines 573-618), the part that
    computes [self.search_matches].  [to_string_lossy] (UTF-8 decoding of a
    file name) and [str::to_lowercase] (Unicode lowercasing) are library
    functions, taken as parameters. *)
Section Search.
Variable to_string_lossy : string -> list char.
Variable to_lowercase : list char -> list char.

(** [path.file_name()?.to_string_lossy().to_lowercase()] *)
Definition search_name (p : path) : option (list char) :=
  match file_name p with
  | Some n => Some (to_lowercase (to_string_lossy n))
  | None => None
  end.

(** The [filter_map] over [search_paths_cache]. *)
Definition score_candidates (query_chars : list char) (cache : list path)
  : list (path * N) :=
  omap (fun p =>
          match search_name p with
          | Some name =>
              match fuzzy_score name query_chars with
              | Some s => Some (p, s)
              | None => None
              end
          | None => None
          end) cache.

Definition update_search_matches (query : list char) (cache : list path)
  : list (path * N) :=
  match query with
  | [] => []
  | _ =>
      let query_chars := to_lowercase query in
      let matches := score_candidates query_chars cache in
      (* matches.sort_by(|a, b| b.1.cmp(&a.1)); matches.truncate(50); *)
      take 50 (sort_by (fun a b => N.compare b.2 a.2) matches)
  end.
End Search.

End Fuzzy.

(** * State Store (src/state.rs) *)
Module State.

Record Bookmark := mkBookmark {
  bm_path : path;
  label : string;
  created_at : N   (* u64, seconds since the epoch *)
}.

(** [HashSet<PathBuf>] as [gset path]; the iteration order of a Rust
    [HashSet] is unspecified and is taken to be [elements]. *)
Record PersistentState := mkPersistentState {
  expanded_dirs : gset path;
  starred_dirs : gset path;
  show_hidden : bool;
  bookmarks : list Bookmark;
  recent_dirs : list path   (* VecDeque, front first *)
}.

(** [SystemTime::now().duration_since(UNIX_EPOCH).map(|d| d.as_secs())
    .unwrap_or(0)]: the clock reading is an input, [None] when the clock
    is before the epoch. *)
Definition epoch_secs (now : option N) : N :=
  match now with Some s => s | None => 0 end.

(** [self.bookmarks.retain(|b| b.path != path); self.bookmarks.push(..)] *)
Definition add_bookmark (st : PersistentState) (p : path) (lbl : string)
    (now : option N) : PersistentState :=
  let kept := filter (fun b => bm_path b <> p) (bookmarks st) in
  mkPersistentState (expanded_dirs st) (starred_dirs st) (show_hidden st)
    (kept ++ [mkBookmark p lbl (epoch_secs now)]) (recent_dirs st).

Definition get_bookmark (st : PersistentState) (p : path) : option Bookmark :=
  find (fun b => bool_decide (bm_path b = p)) (bookmarks st).

(** [while self.recent_dirs.len() > 50 { self.recent_dirs.pop_back(); }];
    each iteration removes one element, so [length l] iterations bound it. *)
Fixpoint pop_back_while (fuel : nat) (l : list path) : list path :=
  match fuel with
  | O => l
  | S f => if Nat.ltb 50 (length l) then pop_back_while f (removelast l) else l
  end.

Definition add_recent (st : PersistentState) (p : path) : PersistentState :=
  let l := p :: filter (fun q => q <> p) (recent_dirs st) in
  mkPersistentState (expanded_dirs st) (starred_dirs st) (show_hidden st)
    (bookmarks st) (pop_back_while (length l) l).

End State.

(** * Tree Builder (src/tree.rs, src/icons.rs) *)
Module Tree.

(** [std::io::ErrorKind], as far as the builder distinguishes it. *)
Inductive ErrorKind := PermissionDenied | NotFound | AlreadyExists | InvalidData | Other.

(** The filesystem, as the builder queries it:
    - [read_dir d]: [fs::read_dir(d)], the file names of the entries in
      listing order, [None] for an entry the iterator reports as an error;
    - [is_dir p]: [Path::is_dir] (follows symbolic links, [false] on error);
    - [path_exists p]: [Path::exists]. *)
Record FS := mkFS {
  read_dir : path -> result (list (option string)) ErrorKind;
  is_dir : path -> bool;
  path_exists : path -> bool
}.

(** [DirEntry::path]: the directory joined with the entry's file name. *)
Definition join (d : path) (n : string) : path := d ++ [n].

(** ** UTF-8 ([OsStr::to_str] succeeds exactly on valid UTF-8) *)

Definition byte_in (a : ascii) (lo hi : N) : bool :=
  (lo <=? N_of_ascii a) && (N_of_ascii a <=? hi).

Definition cont_byte (a : ascii) : bool := byte_in a 128 191.

Fixpoint utf8_valid (s : string) : bool :=
  match s with
  | EmptyString => true
  | String a s1 =>
      let b := N_of_ascii a in
      if b <=? 127 then utf8_valid s1
      else if (194 <=? b) && (b <=? 223) then
        match s1 with
        | String c1 s2 => cont_byte c1 && utf8_valid s2
        | EmptyString => false
        end
      else if (224 <=? b) && (b <=? 239) then
        match s1 with
        | String c1 (String c2 s3) =>
            (if b =? 224 then byte_in c1 160 191
             else if b =? 237 then byte_in c1 128 159
             else cont_byte c1) && cont_byte c2 && utf8_valid s3
        | _ => false
        end
      else if (240 <=? b) && (b <=? 244) then
        match s1 with
        | String c1 (String c2 (String c3 s4)) =>
            (if b =? 240 then byte_in c1 144 191
             else if b =? 244 then byte_in c1 128 143
             else cont_byte c1) && cont_byte c2 && cont_byte c3 && utf8_valid s4
        | _ => false
        end
      else false
  end.

(** [fn is_hidden]: [file_name().and_then(to_str).map(starts_with('.'))
    .unwrap_or(false)]. *)
Definition is_hidden (p : path) : bool :=
  match file_name p with
  | Some n =>
      if utf8_valid n then
        match n with String a _ => Ascii.eqb a "."%char | EmptyString => false end
      else false
  | None => false
  end.

(** [Path::extension]: the part of the file name after the last '.', when
    that dot is not the first byte ([rsplit_file_at_dot]). *)
Fixpoint rsplit_dot (s : string) : option (string * string) :=
  match s with
  | EmptyString => None
  | String a s' =>
      match rsplit_dot s' with
      | Some (before, after) => Some (String a before, after)
      | None => if Ascii.eqb a "."%char then Some (EmptyString, s') else None
      end
  end.

Definition extension (p : path) : option string :=
  match file_name p with
  | Some n =>
      if String.eqb n ".." then None
      else match rsplit_dot n with
           | Some (EmptyString, _) => None
           | Some (_, after) => Some after
           | None => None
           end
  | None => None
  end.

(** ** Icons (src/icons.rs): the nerd-font glyph constants by name. *)
Inductive Icon :=
| DEV_RUST | FA_FILE_CODE | MD_LANGUAGE_MARKDOWN | FA_FILE_TEXT_O | DEV_PYTHON
| DEV_JAVASCRIPT | DEV_HTML5 | DEV_CSS3 | COD_TERMINAL | FA_FILE_IMAGE
| FA_FILE_ZIPPER | FA_FILE_PDF | FA_FILE_AUDIO | FA_FILE_VIDEO | FA_LOCK
| DEV_GIT | FA_FILE_O | FA_FOLDER_OPEN | FA_FOLDER.

Definition get_dir_icon (is_expanded : bool) : Icon :=
  if is_expanded then FA_FOLDER_OPEN else FA_FOLDER.

(** The extension is compared as bytes: [to_str] only fails on invalid
    UTF-8, which never equals one of the ASCII extensions below. *)
Definition icon_of_extension (e : option string) : Icon :=
  match e with
  | Some x =>
      if String.eqb x "rs" then DEV_RUST
      else if String.eqb x "toml" then FA_FILE_CODE
      else if String.eqb x "json" then FA_FILE_CODE
      else if String.eqb x "md" then MD_LANGUAGE_MARKDOWN
      else if String.eqb x "txt" then FA_FILE_TEXT_O
      else if String.eqb x "py" then DEV_PYTHON
      else if String.eqb x "js" then DEV_JAVASCRIPT
      else if String.eqb x "ts" then DEV_JAVASCRIPT
      else if String.eqb x "html" then DEV_HTML5
      else if String.eqb x "css" then DEV_CSS3
      else if existsb (String.eqb x) ["yml"; "yaml"] then FA_FILE_CODE
      else if existsb (String.eqb x) ["sh"; "bash"; "zsh"] then COD_TERMINAL
      else if existsb (String.eqb x) ["png"; "jpg"; "jpeg"; "gif"; "svg"; "ico"] then FA_FILE_IMAGE
      else if existsb (String.eqb x) ["zip"; "tar"; "gz"; "rar"; "7z"] then FA_FILE_ZIPPER
      else if String.eqb x "pdf" then FA_FILE_PDF
      else if existsb (String.eqb x) ["mp3"; "wav"; "flac"; "ogg"] then FA_FILE_AUDIO
      else if existsb (String.eqb x) ["mp4"; "avi"; "mkv"; "mov"] then FA_FILE_VIDEO
      else if String.eqb x "lock" then FA_LOCK
      else if existsb (String.eqb x) ["git"; "gitignore"] then DEV_GIT
      else FA_FILE_O
  | None => FA_FILE_O
  end.

Definition get_icon (fs : FS) (p : path) (is_expanded : bool) : Icon :=
  if is_dir fs p then get_dir_icon is_expanded else icon_of_extension (extension p).

(** ** Labels

    A label is the text of a tree row, kept as its pieces: the rendered
    string is their concatenation, with [PName] an OS string through
    [to_string_lossy], [PDisplay] a path through [Path::display] and [PSize]
    a byte count through [size::format_size]. *)
Inductive Piece :=
| PIcon (i : Icon)
| PText (s : string)
| PName (s : string)
| PDisplay (p : path)
| PSize (bytes : N).

Definition label := list Piece.

#[local] Set Warnings "-register-all".

(** [tui_tree_widget::TreeItem]: identifier, text and children. *)
Inductive TreeItem := Node (identifier : path) (text : label) (children : list TreeItem).

Definition item_id (it : TreeItem) : path := match it with Node i _ _ => i end.
Definition item_children (it : TreeItem) : list TreeItem :=
  match it with Node _ _ c => c end.

Definition new_leaf (id : path) (t : label) : TreeItem := Node id t [].

(** [TreeItem::new] refuses children with duplicate identifiers. *)
Definition tree_item_new (id : path) (t : label) (children : list TreeItem)
  : result TreeItem ErrorKind :=
  if bool_decide (NoDup (map item_id children)) then Ok (Node id t children)
  else Err AlreadyExists.

(** The size cache, [HashMap<PathBuf, Option<u64>>]. *)
Abbreviation SizeCache := (gmap path (option N)).

(** [pub fn format_entry_name] *)
Definition format_entry_name (fs : FS) (p : path) (is_expanded is_starred : bool)
    (dir_sizes : option SizeCache) : label :=
  let icon := get_icon fs p is_expanded in
  let name := match file_name p with Some n => PName n | None => PDisplay p end in
  let star := if is_starred then [PText " ★"] else [] in
  let size_str :=
    if is_expanded && is_dir fs p then
      match dir_sizes with
      | Some sizes =>
          match sizes !! p with
          | Some (Some bytes) => [PText " ["; PSize bytes; PText "]"]
          | Some None => [PText " [...]"]
          | None => []
          end
      | None => []
      end
    else [] in
  [PIcon icon; PText " "; name] ++ star ++ size_str.

(** ** [fn sort_entries] *)

(** [u8::to_ascii_lowercase] on every byte. *)
Definition ascii_lower (a : ascii) : ascii :=
  if byte_in a 65 90 then ascii_of_N (N_of_ascii a + 32) else a.

Definition to_ascii_lowercase (s : string) : string :=
  string_of_list_ascii (map ascii_lower (list_ascii_of_string s)).

(** [Option<OsString>::cmp]: [None] first, then bytewise. *)
Definition option_cmp (a b : option string) : comparison :=
  match a, b with
  | None, None => Eq
  | None, Some _ => Lt
  | Some _, None => Gt
  | Some x, Some y => String.compare x y
  end.

Definition lower_name (p : path) : option string :=
  option_map to_ascii_lowercase (file_name p).

Definition cmp_entries (fs : FS) (a b : path) : comparison :=
  match is_dir fs a, is_dir fs b with
  | true, false => Lt
  | false, true => Gt
  | _, _ => option_cmp (lower_name a) (lower_name b)
  end.

Definition sort_entries (fs : FS) (entries : list path) : list path :=
  sort_by (cmp_entries fs) entries.

(** ** [fn load_children] and [fn build_tree]

    Both have the same body: list the directory, drop the entries the
    iterator reports as errors, drop hidden entries unless [show_hidden],
    sort, and build every entry with [build_tree_item], dropping the
    entries whose item fails ([filter_map(.. .ok())]).  [bi] is the
    recursive call. *)
Definition load_children_with (bi : path -> result TreeItem ErrorKind) (fs : FS)
    (show_hidden : bool) (dir : path) : result (list TreeItem) ErrorKind :=
  match read_dir fs dir with
  | Err e => Err e
  | Ok es =>
      let entries := List.filter (fun p => show_hidden || negb (is_hidden p))
                       (map (join dir) (omap id es)) in
      let entries := sort_entries fs entries in
      Ok (omap (fun p => match bi p with Ok it => Some it | Err _ => None end) entries)
  end.

(** [fn format_error] *)
Definition format_error (e : ErrorKind) : string :=
  match e with
  | PermissionDenied => "Permission denied"
  | NotFound => "Not found"
  | _ => "Error"
  end.

(** [pub fn build_tree_item].  The Rust function recurses without a bound;
    it only descends into expanded directories and every child path is one
    component longer than its parent, so the depth is below
    [build_fuel expanded_dirs] (see [build_tree]); [fuel] is that bound. *)
Fixpoint build_tree_item (fuel : nat) (fs : FS) (expanded_dirs starred_dirs : gset path)
    (show_hidden : bool) (dir_sizes : option SizeCache) (p : path)
    : result TreeItem ErrorKind :=
  match fuel with
  | O => Err Other
  | S f =>
      let is_expanded := bool_decide (p ∈ expanded_dirs) in
      let is_starred := bool_decide (p ∈ starred_dirs) in
      let name := format_entry_name fs p is_expanded is_starred dir_sizes in
      if is_dir fs p && is_expanded then
        match load_children_with
                (build_tree_item f fs expanded_dirs starred_dirs show_hidden dir_sizes)
                fs show_hidden p with
        | Ok children =>
            match tree_item_new p name children with
            | Ok it => Ok it
            | Err _ => Err Other
            end
        | Err e => Ok (new_leaf p (name ++ [PText " ["; PText (format_error e); PText "]"]))
        end
      else Ok (new_leaf p name)
  end.

Definition build_fuel (expanded_dirs : gset path) : nat :=
  S (foldr Nat.max 0%nat (map length (elements expanded_dirs))).

(** [pub fn build_tree] *)
Definition build_tree (fs : FS) (root : path) (expanded_dirs starred_dirs : gset path)
    (show_hidden : bool) (dir_sizes : option SizeCache) : result (list TreeItem) ErrorKind :=
  load_children_with
    (build_tree_item (build_fuel expanded_dirs) fs expanded_dirs starred_dirs
       show_hidden dir_sizes)
    fs show_hidden root.

(** ** The flat views *)

(** [file_name().map(|n| n.to_ascii_lowercase())] compared. *)
Definition cmp_names (a b : path) : comparison := option_cmp (lower_name a) (lower_name b).

Definition build_starred_list (fs : FS) (starred_dirs : gset path)
  : result (list TreeItem) ErrorKind :=
  let dirs := sort_by cmp_names (elements starred_dirs) in
  Ok (map (fun p => new_leaf p [PText "★ "; PDisplay p])
          (List.filter (path_exists fs) dirs)).

Definition build_bookmarks_list (fs : FS) (bookmarks : list State.Bookmark)
  : result (list TreeItem) ErrorKind :=
  Ok (map (fun b =>
             let display :=
               if String.eqb (State.label b) "" then [PText "📌 "; PDisplay (State.bm_path b)]
               else [PText "📌 "; PText (State.label b); PText " (";
                     PName (match file_name (State.bm_path b) with Some n => n | None => "" end);
                     PText ")"] in
             new_leaf (State.bm_path b) display)
          (List.filter (fun b => path_exists fs (State.bm_path b)) bookmarks)).

Definition build_recent_list (fs : FS) (recent_dirs : list path)
  : result (list TreeItem) ErrorKind :=
  Ok (map (fun p => new_leaf p [PText "⏱ "; PDisplay p])
          (List.filter (path_exists fs) recent_dirs)).

(** ** Observations on a built forest (used to state properties) *)

(** The entries of a listing, as [load_children] sees them before
    filtering and sorting. *)
Definition listing (fs : FS) (d : path) : list path :=
  match read_dir fs d with
  | Ok es => map (join d) (omap id es)
  | Err _ => []
  end.





End Tree.

(** * Concrete inputs *)
Module Fixtures.
Import Tree.

(** A root holding the files "b", "A", ".h", "Éb" and "éa", an entry the
    listing reports as an error, and the directory "src" with "main.rs" and
    "lib.rs". *)
Definition root_entries : list (option string) :=
  [Some "b"; Some "A"; Some ".h"; Some "Éb"; Some "éa"; Some "src"; None].

Definition sample_fs : FS :=
  mkFS (fun p => if bool_decide (p = []) then Ok root_entries
                 else if bool_decide (p = ["src"]) then Ok [Some "main.rs"; Some "lib.rs"]
                 else Err NotFound)
       (fun p => bool_decide (p = ["src"]))
       (fun _ => true).

(** The same tree, except that "src" cannot be listed. *)
Definition sample_fs_locked : FS :=
  mkFS (fun p => if bool_decide (p = []) then Ok root_entries else Err PermissionDenied)
       (fun p => bool_decide (p = ["src"]))
       (fun _ => true).

Definition sample_forest : list TreeItem :=
  Eval vm_compute in
    match build_tree sample_fs [] {[ ["src"] ]} ∅ false None with
    | Ok f => f
    | Err _ => []
    end.




End Fixtures.

(** * The controller (src/app.rs, src/size.rs) *)
Module App.
Import State Tree.

(** [enum ViewMode]; its [Tree] variant is named [TreeView] here, since
    [Tree] names the builder's module. *)
Inductive ViewMode := TreeView | Starred | Bookmarks | Recent.

Inductive InputMode := Normal | Search | BookmarkLabel.

(** [tui_tree_widget::TreeState<PathBuf>], as far as the controller uses
    it: the selected identifier (a path from the root item down), the set
    of opened identifiers, and the identifiers of the rows drawn by the last
    render (written by the renderer, read by [select_first]). *)
Record TreeState := mkTreeState {
  selected : list path;
  opened : gset (list path);
  last_identifiers : list (list path)
}.

Definition tree_state_default : TreeState := mkTreeState [] ∅ [].

Definition ts_open (ts : TreeState) (id : list path) : TreeState :=
  mkTreeState (selected ts) ({[ id ]} ∪ opened ts) (last_identifiers ts).

Definition ts_close (ts : TreeState) (id : list path) : TreeState :=
  mkTreeState (selected ts) (opened ts ∖ {[ id ]}) (last_identifiers ts).

Definition ts_select (ts : TreeState) (id : list path) : TreeState :=
  mkTreeState id (opened ts) (last_identifiers ts).

Definition ts_select_first (ts : TreeState) : TreeState :=
  ts_select ts (match last_identifiers ts with i :: _ => i | [] => [] end).

(** [key_left]: close the selected item if it is open, otherwise select
    its parent. *)
Definition ts_key_left (ts : TreeState) : TreeState :=
  if bool_decide (selected ts ∈ opened ts) then ts_close ts (selected ts)
  else ts_select ts (removelast (selected ts)).

(** [SizeWorker]: the two [bounded(100)] channels between the controller
    and the worker thread, as their queues (front first). *)
Record SizeWorker := mkSizeWorker {
  request_q : list path;
  result_q : list (path * N)
}.

Definition channel_capacity : nat := 100.

(** [request_size]: [self.request_tx.try_send(path)], whose [Full] error
    is ignored. *)
Definition request_size (w : SizeWorker) (p : path) : SizeWorker :=
  if Nat.ltb (length (request_q w)) channel_capacity
  then mkSizeWorker (request_q w ++ [p]) (result_q w)
  else w.

(** One iteration of the worker thread: [request_rx.recv()], the size of
    the directory ([calculate_dir_size], an input here), and
    [result_tx.send(..)], which blocks while the result queue is full. *)
Definition worker_step (w : SizeWorker) (size : N) : SizeWorker :=
  match request_q w with
  | p :: rest =>
      if Nat.ltb (length (result_q w)) channel_capacity
      then mkSizeWorker rest (result_q w ++ [(p, size)])
      else w
  | [] => w
  end.

(** [poll_results]: drain the result queue into the cache. *)
Definition poll_results (w : SizeWorker) (sizes : SizeCache) : SizeWorker * SizeCache :=
  (mkSizeWorker (request_q w) [],
   foldl (fun m r => <[ r.1 := Some r.2 ]> m) sizes (result_q w)).

(** [struct App], without the fields of the terminal (config, visible
    height, tree area, preview flag, click timing) and with the text
    inputs as their values. *)
Record App := mkApp {
  tree_state : TreeState;
  items : list TreeItem;
  root_path : path;
  persistent_state : PersistentState;
  should_quit : bool;
  selected_dir : option path;
  view_mode : ViewMode;
  input_mode : InputMode;
  show_help : bool;
  search_matches : list (path * N);
  search_index : nat;
  search_paths_cache : list path;
  bookmark_input : string;
  bookmark_path : option path;
  dir_sizes : SizeCache;
  size_worker : SizeWorker;
  saved_view_items : option (list TreeItem);
  saved_selection : option (list path)
}.

(** Field updates ([self.f = v]). *)
Definition set_tree_state (a : App) (v : TreeState) : App :=
  mkApp v (items a) (root_path a) (persistent_state a) (should_quit a) (selected_dir a) (view_mode a) (input_mode a) (show_help a) (search_matches a) (search_index a) (search_paths_cache a) (bookmark_input a) (bookmark_path a) (dir_sizes a) (size_worker a) (saved_view_items a) (saved_selection a).
Definition set_items (a : App) (v : list TreeItem) : App :=
  mkApp (tree_state a) v (root_path a) (persistent_state a) (should_quit a) (selected_dir a) (view_mode a) (input_mode a) (show_help a) (search_matches a) (search_index a) (search_paths_cache a) (bookmark_input a) (bookmark_path a) (dir_sizes a) (size_worker a) (saved_view_items a) (saved_selection a).
Definition set_root_path (a : App) (v : path) : App :=
  mkApp (tree_state a) (items a) v (persistent_state a) (should_quit a) (selected_dir a) (view_mode a) (input_mode a) (show_help a) (search_matches a) (search_index a) (search_paths_cache a) (bookmark_input a) (bookmark_path a) (dir_sizes a) (size_worker a) (saved_view_items a) (saved_selection a).
Definition set_persistent_state (a : App) (v : PersistentState) : App :=
  mkApp (tree_state a) (items a) (root_path a) v (should_quit a) (selected_dir a) (view_mode a) (input_mode a) (show_help a) (search_matches a) (search_index a) (search_paths_cache a) (bookmark_input a) (bookmark_path a) (dir_sizes a) (size_worker a) (saved_view_items a) (saved_selection a).
Definition set_should_quit (a : App) (v : bool) : App :=
  mkApp (tree_state a) (items a) (root_path a) (persistent_state a) v (selected_dir a) (view_mode a) (input_mode a) (show_help a) (search_matches a) (search_index a) (search_paths_cache a) (bookmark_input a) (bookmark_path a) (dir_sizes a) (size_worker a) (saved_view_items a) (saved_selection a).
Definition set_selected_dir (a : App) (v : option path) : App :=
  mkApp (tree_state a) (items a) (root_path a) (persistent_state a) (should_quit a) v (view_mode a) (input_mode a) (show_help a) (search_matches a) (search_index a) (search_paths_cache a) (bookmark_input a) (bookmark_path a) (dir_sizes a) (size_worker a) (saved_view_items a) (saved_selection a).
Definition set_view_mode (a : App) (v : ViewMode) : App :=
  mkApp (tree_state a) (items a) (root_path a) (persistent_state a) (should_quit a) (selected_dir a) v (input_mode a) (show_help a) (search_matches a) (search_index a) (search_paths_cache a) (bookmark_input a) (bookmark_path a) (dir_sizes a) (size_worker a) (saved_view_items a) (saved_selection a).
Definition set_input_mode (a : App) (v : InputMode) : App :=
  mkApp (tree_state a) (items a) (root_path a) (persistent_state a) (should_quit a) (selected_dir a) (view_mode a) v (show_help a) (search_matches a) (search_index a) (search_paths_cache a) (bookmark_input a) (bookmark_path a) (dir_sizes a) (size_worker a) (saved_view_items a) (saved_selection a).
Definition set_show_help (a : App) (v : bool) : App :=
  mkApp (tree_state a) (items a) (root_path a) (persistent_state a) (should_quit a) (selected_dir a) (view_mode a) (input_mode a) v (search_matches a) (search_index a) (search_paths_cache a) (bookmark_input a) (bookmark_path a) (dir_sizes a) (size_worker a) (saved_view_items a) (saved_selection a).
Definition set_search_matches (a : App) (v : list (path * N)) : App :=
  mkApp (tree_state a) (items a) (root_path a) (persistent_state a) (should_quit a) (selected_dir a) (view_mode a) (input_mode a) (show_help a) v (search_index a) (search_paths_cache a) (bookmark_input a) (bookmark_path a) (dir_sizes a) (size_worker a) (saved_view_items a) (saved_selection a).
Definition set_search_index (a : App) (v : nat) : App :=
  mkApp (tree_state a) (items a) (root_path a) (persistent_state a) (should_quit a) (selected_dir a) (view_mode a) (input_mode a) (show_help a) (search_matches a) v (search_paths_cache a) (bookmark_input a) (bookmark_path a) (dir_sizes a) (size_worker a) (saved_view_items a) (saved_selection a).
Definition set_search_paths_cache (a : App) (v : list path) : App :=
  mkApp (tree_state a) (items a) (root_path a) (persistent_state a) (should_quit a) (selected_dir a) (view_mode a) (input_mode a) (show_help a) (search_matches a) (search_index a) v (bookmark_input a) (bookmark_path a) (dir_sizes a) (size_worker a) (saved_view_items a) (saved_selection a).
Definition set_bookmark_input (a : App) (v : string) : App :=
  mkApp (tree_state a) (items a) (root_path a) (persistent_state a) (should_quit a) (selected_dir a) (view_mode a) (input_mode a) (show_help a) (search_matches a) (search_index a) (search_paths_cache a) v (bookmark_path a) (dir_sizes a) (size_worker a) (saved_view_items a) (saved_selection a).
Definition set_bookmark_path (a : App) (v : option path) : App :=
  mkApp (tree_state a) (items a) (root_path a) (persistent_state a) (should_quit a) (selected_dir a) (view_mode a) (input_mode a) (show_help a) (search_matches a) (search_index a) (search_paths_cache a) (bookmark_input a) v (dir_sizes a) (size_worker a) (saved_view_items a) (saved_selection a).
Definition set_dir_sizes (a : App) (v : SizeCache) : App :=
  mkApp (tree_state a) (items a) (root_path a) (persistent_state a) (should_quit a) (selected_dir a) (view_mode a) (input_mode a) (show_help a) (search_matches a) (search_index a) (search_paths_cache a) (bookmark_input a) (bookmark_path a) v (size_worker a) (saved_view_items a) (saved_selection a).
Definition set_size_worker (a : App) (v : SizeWorker) : App :=
  mkApp (tree_state a) (items a) (root_path a) (persistent_state a) (should_quit a) (selected_dir a) (view_mode a) (input_mode a) (show_help a) (search_matches a) (search_index a) (search_paths_cache a) (bookmark_input a) (bookmark_path a) (dir_sizes a) v (saved_view_items a) (saved_selection a).
Definition set_saved_view_items (a : App) (v : option (list TreeItem)) : App :=
  mkApp (tree_state a) (items a) (root_path a) (persistent_state a) (should_quit a) (selected_dir a) (view_mode a) (input_mode a) (show_help a) (search_matches a) (search_index a) (search_paths_cache a) (bookmark_input a) (bookmark_path a) (dir_sizes a) (size_worker a) v (saved_selection a).
Definition set_saved_selection (a : App) (v : option (list path)) : App :=
  mkApp (tree_state a) (items a) (root_path a) (persistent_state a) (should_quit a) (selected_dir a) (view_mode a) (input_mode a) (show_help a) (search_matches a) (search_index a) (search_paths_cache a) (bookmark_input a) (bookmark_path a) (dir_sizes a) (size_worker a) (saved_view_items a) v.

Definition set_expanded (st : PersistentState) (e : gset path) : PersistentState :=
  mkPersistentState e (starred_dirs st) (show_hidden st) (bookmarks st) (recent_dirs st).

Definition set_starred (st : PersistentState) (s : gset path) : PersistentState :=
  mkPersistentState (expanded_dirs st) s (show_hidden st) (bookmarks st) (recent_dirs st).

Definition set_show_hidden (st : PersistentState) (b : bool) : PersistentState :=
  mkPersistentState (expanded_dirs st) (starred_dirs st) b (bookmarks st) (recent_dirs st).

Definition get_selected_path (a : App) : option path := last (selected (tree_state a)).

(** The builder call of [rebuild_tree], for the active view. *)
Definition builder (fs : FS) (a : App) : result (list TreeItem) ErrorKind :=
  let st := persistent_state a in
  match view_mode a with
  | TreeView => build_tree fs (root_path a) (expanded_dirs st) (starred_dirs st)
                  (show_hidden st) (Some (dir_sizes a))
  | Starred => build_starred_list fs (starred_dirs st)
  | Bookmarks => build_bookmarks_list fs (bookmarks st)
  | Recent => build_recent_list fs (recent_dirs st)
  end.

(** [fn rebuild_tree]: [if let Ok(items) = items { self.items = items; }] *)
Definition rebuild_tree (fs : FS) (a : App) : App :=
  match builder fs a with
  | Ok it => set_items a it
  | Err _ => a
  end.

Definition request_size_for_dir (a : App) (p : path) : App :=
  match dir_sizes a !! p with
  | Some _ => a
  | None => set_size_worker (set_dir_sizes a (<[ p := None ]> (dir_sizes a)))
              (request_size (size_worker a) p)
  end.

Definition toggle_selected (fs : FS) (a : App) : App :=
  match get_selected_path a with
  | Some s =>
      if is_dir fs s then
        let st := persistent_state a in
        let a1 :=
          if bool_decide (s ∈ expanded_dirs st) then
            set_tree_state (set_persistent_state a (set_expanded st (expanded_dirs st ∖ {[ s ]})))
              (ts_close (tree_state a) [s])
          else
            request_size_for_dir
              (set_tree_state (set_persistent_state a (set_expanded st ({[ s ]} ∪ expanded_dirs st)))
                 (ts_open (tree_state a) [s])) s in
        rebuild_tree fs a1
      else a
  | None => a
  end.

Definition toggle_star (fs : FS) (a : App) : App :=
  match get_selected_path a with
  | Some s =>
      if is_dir fs s then
        let st := persistent_state a in
        let st1 := if bool_decide (s ∈ starred_dirs st)
                   then set_starred st (starred_dirs st ∖ {[ s ]})
                   else set_starred st ({[ s ]} ∪ starred_dirs st) in
        rebuild_tree fs (set_persistent_state a st1)
      else a
  | None => a
  end.

Definition expand_selected (fs : FS) (a : App) : App :=
  match get_selected_path a with
  | Some s =>
      let st := persistent_state a in
      if is_dir fs s && negb (bool_decide (s ∈ expanded_dirs st)) then
        let a1 := set_tree_state (set_persistent_state a (set_expanded st ({[ s ]} ∪ expanded_dirs st)))
                    (ts_open (tree_state a) [s]) in
        request_size_for_dir (rebuild_tree fs a1) s
      else a
  | None => a
  end.

Definition collapse_or_parent (fs : FS) (a : App) : App :=
  match get_selected_path a with
  | Some s =>
      let st := persistent_state a in
      if is_dir fs s && bool_decide (s ∈ expanded_dirs st) then
        rebuild_tree fs
          (set_tree_state (set_persistent_state a (set_expanded st (expanded_dirs st ∖ {[ s ]})))
             (ts_close (tree_state a) [s]))
      else set_tree_state a (ts_key_left (tree_state a))
  | None => set_tree_state a (ts_key_left (tree_state a))
  end.

Definition toggle_hidden (fs : FS) (a : App) : App :=
  let st := persistent_state a in
  rebuild_tree fs (set_persistent_state a (set_show_hidden st (negb (show_hidden st)))).

(** [KeyCode::Enter] in [handle_bookmark_label_key]. *)
Definition confirm_bookmark_label (fs : FS) (now : option N) (a : App) : App :=
  let a1 :=
    match bookmark_path a with
    | Some p =>
        let a0 := set_bookmark_path a None in
        rebuild_tree fs (set_persistent_state a0
                           (add_bookmark (persistent_state a0) p (bookmark_input a0) now))
    | None => a
    end in
  set_bookmark_input (set_input_mode a1 Normal) "".

Definition exit_search_mode (a : App) : App :=
  let a1 := set_search_paths_cache (set_search_index (set_search_matches
              (set_input_mode a Normal) []) 0%nat) [] in
  match saved_view_items a1 with
  | Some it =>
      let a2 := set_saved_view_items (set_items a1 it) None in
      let ts := match saved_selection a2 with
                | Some sel => ts_select tree_state_default sel
                | None => ts_select_first tree_state_default
                end in
      set_saved_selection (set_tree_state a2 ts) None
  | None => a1
  end.

(** The loop over [p, p.parent(), ..., "/"] keeping the ancestors that
    lie strictly below the root, deepest first. *)
Fixpoint ancestors_below (fuel : nat) (root p : path) : list path :=
  match fuel with
  | O => []
  | S f =>
      (if bool_decide (root `prefix_of` p /\ p <> root) then [p] else []) ++
      match p with
      | [] => []
      | _ => ancestors_below f root (removelast p)
      end
  end.

Definition selection_path (root p : path) : list path :=
  rev (ancestors_below (S (length p)) root p).

(** [fn jump_to_search_result]; [None] is the panic of an out-of-range
    [self.search_matches[self.search_index]]. *)
Definition jump_to_search_result (fs : FS) (a : App) : option App :=
  match search_matches a with
  | [] => Some (exit_search_mode a)
  | _ =>
      match nth_error (search_matches a) (search_index a) with
      | None => None
      | Some (p, _) =>
          let a1 := match saved_view_items a with
                    | Some it => set_saved_view_items (set_items a it) None
                    | None => a
                    end in
          let a2 := set_saved_selection a1 None in
          let sel := selection_path (root_path a2) p in
          let st := persistent_state a2 in
          let e := foldl (fun e q => {[ q ]} ∪ e) (expanded_dirs st)
                     (take (length sel - 1) sel) in
          let a3 := rebuild_tree fs (set_persistent_state a2 (set_expanded st e)) in
          let ts := set_fold (fun q ts => ts_open ts [q]) tree_state_default e in
          let a4 := set_tree_state a3 (ts_select ts sel) in
          Some (set_search_paths_cache (set_search_index (set_search_matches
                  (set_input_mode a4 Normal) []) 0%nat) [])
      end
  end.

(** The mutating actions, with the handler that runs them:
    [Expand] ([Right] or [l]), [Collapse] ([Left] or [h]), [Toggle]
    ([Space] or a double click), [Star] ([s]), [Hidden] ([.]),
    [BookmarkConfirm] ([Enter] while a bookmark label is edited) and
    [SearchConfirm] ([Enter] while searching). *)
Inductive Action := Expand | Collapse | Toggle | Star | Hidden | BookmarkConfirm | SearchConfirm.

(** The handler of an action; [now] is the clock reading. *)
Definition run_action (fs : FS) (now : option N) (a : App) (act : Action) : option App :=
  match act with
  | Expand => Some (expand_selected fs a)
  | Collapse => Some (collapse_or_parent fs a)
  | Toggle => Some (toggle_selected fs a)
  | Star => Some (toggle_star fs a)
  | Hidden => Some (toggle_hidden fs a)
  | BookmarkConfirm => Some (confirm_bookmark_label fs now a)
  | SearchConfirm => jump_to_search_result fs a
  end.

(** The condition under which a handler changes the persistent state,
    i.e. performs the action rather than a cursor move or nothing. *)
Definition mutates (fs : FS) (a : App) (act : Action) : bool :=
  let e := expanded_dirs (persistent_state a) in
  match act with
  | Expand => match get_selected_path a with
              | Some s => is_dir fs s && negb (bool_decide (s ∈ e)) | None => false end
  | Collapse => match get_selected_path a with
                | Some s => is_dir fs s && bool_decide (s ∈ e) | None => false end
  | Toggle | Star => match get_selected_path a with
                     | Some s => is_dir fs s | None => false end
  | Hidden => true
  | BookmarkConfirm => match bookmark_path a with Some _ => true | None => false end
  | SearchConfirm => match search_matches a with [] => false | _ => true end
  end.

(** The events of a session, as far as the size cache is concerned: an
    action, one iteration of the worker thread (with the size it
    computed), and the [poll_results] at the top of [run]'s loop. *)
Inductive Event :=
| Act (now : option N) (act : Action)
| WorkerTick (size : N)
| PollTick.

Definition step (fs : FS) (a : App) (ev : Event) : option App :=
  match ev with
  | Act now act => run_action fs now a act
  | WorkerTick n => Some (set_size_worker a (worker_step (size_worker a) n))
  | PollTick =>
      let r := poll_results (size_worker a) (dir_sizes a) in
      Some (set_dir_sizes (set_size_worker a r.1) r.2)
  end.

(** A session prefix; [None] if a handler panicked. *)
Fixpoint run_events (fs : FS) (a : App) (evs : list Event) : option App :=
  match evs with
  | [] => Some a
  | ev :: rest => match step fs a ev with
                  | Some a1 => run_events fs a1 rest
                  | None => None
                  end
  end.

End App.

(** Observation: how many times [p] waits in the request queue. *)
Definition queued (p : path) (a : App.App) : nat :=
  length (filter (fun q => q = p) (App.request_q (App.size_worker a))).

(** * Concrete controller states *)
Module AppFixtures.
Import State Tree Fixtures App.

Definition empty_state : PersistentState := mkPersistentState ∅ ∅ false [] [].

(** A controller in the tree view at [root], with [sel] selected, showing
    [its], with an empty size cache and the worker's queues [w]. *)
Definition app_at (root : path) (sel : list path) (its : list TreeItem) (w : SizeWorker) : App :=
  mkApp (mkTreeState sel ∅ []) its root empty_state false None TreeView Normal false
    [] 0%nat [] "" None ∅ w None None.

(** The forest [App::new] builds for [sample_fs], nothing expanded. *)
Definition sample_items : list TreeItem :=
  Eval vm_compute in
    match build_tree sample_fs [] ∅ ∅ false None with Ok f => f | Err _ => [] end.

(** The tree of [sample_fs], with "src" selected and both queues empty. *)
Definition sample_app : App := app_at [] [["src"]] sample_items (mkSizeWorker [] []).

(** The same filesystem once the root has become unreadable. *)
Definition locked_root_fs : FS :=
  mkFS (fun _ => Err PermissionDenied) (fun p => bool_decide (p = ["src"])) (fun _ => true).

(** A full request queue: 100 pending requests for other directories. *)
Definition busy_queue : list path :=
  map (fun i => ["q"; String (ascii_of_nat i) ""]) (seq 0 100).

Definition busy_app : App := app_at [] [["src"]] sample_items (mkSizeWorker busy_queue []).

(** The forest of [sample_fs] with "src" expanded and its size pending. *)
Definition sample_items_src_open : list TreeItem :=
  Eval vm_compute in
    match build_tree sample_fs [] {[ ["src"] ]} ∅ false (Some {[ ["src"] := None ]}) with
    | Ok f => f
    | Err _ => []
    end.

(** A session that drains the queue, collects the results and then
    collapses and re-expands "src". *)
Definition drain_and_reexpand : list Event :=
  repeat (WorkerTick 0) 100 ++ [PollTick; Act None Toggle; Act None Toggle].

End AppFixtures.

(** * Shutdown: [PersistentState::save], the end of [App::run] and of [main] *)
Module Shutdown.
Import State Tree.

(** The environment [save] runs in: [dirs::data_dir()], and the results of
    [fs::create_dir_all] and [fs::write] at a given path. *)
Record SaveEnv := mkSaveEnv {
  data_dir : option path;
  create_dir_all : path -> result unit ErrorKind;
  write_file : path -> result unit ErrorKind
}.

Definition path_utf8 (p : path) : bool := forallb utf8_valid p.

(** [serde_json::to_string_pretty(self)]: serializing a [PathBuf] fails on
    a path that is not valid UTF-8, and the [serde_json::Error] becomes an
    [io::Error] of kind [InvalidData] through [?].  The text itself is not
    modelled. *)
Definition to_json (st : PersistentState) : result unit ErrorKind :=
  if forallb path_utf8 (elements (expanded_dirs st)) &&
     forallb path_utf8 (elements (starred_dirs st)) &&
     forallb (fun b => path_utf8 (bm_path b)) (bookmarks st) &&
     forallb path_utf8 (recent_dirs st)
  then Ok tt else Err InvalidData.

Definition state_file_path (env : SaveEnv) : option path :=
  match data_dir env with
  | Some d => Some (d ++ ["treenav"; "state.json"])
  | None => None
  end.

(** [pub fn save]; the parent of [d/treenav/state.json] always exists. *)
Definition save (env : SaveEnv) (st : PersistentState) : result unit ErrorKind :=
  match state_file_path env with
  | Some p =>
      u <- create_dir_all env (removelast p) ;;
      json <- to_json st ;;
      write_file env p
  | None => Ok tt
  end.

(** The end of [App::run]: [loop_result] is the outcome of the event loop
    (an error of [terminal.draw], [event::poll] or [event::read] leaves it
    through [?]); then [self.persistent_state.save()?; Ok(())]. *)
Definition run_exit (loop_result : result unit ErrorKind) (env : SaveEnv)
    (st : PersistentState) : result unit ErrorKind :=
  u <- loop_result ;;
  v <- save env st ;;
  Ok tt.

(** What the process shows when it ends. *)
Record Exit := mkExit {
  stdout_lines : list path;        (* [println!] of the selected directory *)
  stderr_report : option ErrorKind; (* the error report of a failing [main] *)
  exit_status : N
}.

(** Returning from [main]: [Ok(())] exits with status 0; [Err(report)]
    prints the report on stderr and exits with status 1. *)
Definition terminate (lines : list path) (r : result unit ErrorKind) : Exit :=
  match r with
  | Ok _ => mkExit lines None 0
  | Err e => mkExit lines (Some e) 1
  end.

(** The end of [main] after [let result = app.run(&mut terminal);]:
    [restore] is the outcome of [disable_raw_mode()?] and [execute!(..)?];
    then the selected directory is printed and [result] returned. *)
Definition main_exit (run_result restore : result unit ErrorKind)
    (selected_dir : option path) : Exit :=
  match restore with
  | Err e => terminate [] (Err e)
  | Ok _ =>
      let lines := match selected_dir with Some d => [d] | None => [] end in
      terminate lines run_result
  end.

(** A home whose data directory cannot be created. *)
Definition readonly_env : SaveEnv :=
  mkSaveEnv (Some ["home"; "u"; ".local"; "share"])
    (fun _ => Err PermissionDenied) (fun _ => Ok tt).

(** A persistent state with nothing recorded. *)
Definition no_state : PersistentState := mkPersistentState ∅ ∅ false [] [].

End Shutdown.

(** * Observations on built forests *)
Module TreeObs.
Import Tree.

Definition item_text (it : TreeItem) : label := match it with Node _ t _ => t end.

(** Every item of a tree, in pre-order. *)
Fixpoint item_nodes (it : TreeItem) : list TreeItem :=
  match it with Node _ _ ch => it :: flat_map item_nodes ch end.

Definition forest_nodes (forest : list TreeItem) : list TreeItem :=
  flat_map item_nodes forest.

(** The entries of [d] that [load_children] keeps, in its order. *)
Definition shown_entries (fs : FS) (show_hidden : bool) (d : path) : list path :=
  sort_entries fs (List.filter (fun p => show_hidden || negb (is_hidden p)) (listing fs d)).

(** Directory listings never name an entry twice. *)
Definition listings_nodup (fs : FS) : Prop :=
  forall d es, read_dir fs d = Ok es -> NoDup (omap id es).

End TreeObs.

(** * More of the controller (src/app.rs): [App::new], search mode, view
    switching, bookmark labels and [select_and_quit] *)
Module AppMore.
Import State Tree App.

(** [App::new] after [PersistentState::load()]: [st] is the loaded state
    and [SizeWorker::new()] starts with both channels empty. *)
Definition app_new (fs : FS) (root : path) (st : PersistentState) : result App ErrorKind :=
  items <- build_tree fs root (expanded_dirs st) (starred_dirs st) (show_hidden st) None ;;
  let ts := set_fold (fun q ts => ts_open ts [q]) tree_state_default (expanded_dirs st) in
  Ok (mkApp (ts_select_first ts) items root st false None TreeView Normal false
        [] 0%nat [] "" None ∅ (mkSizeWorker [] []) None None).

(** [fn collect_recursive]: each identifier, then those of its children. *)
Fixpoint collect_recursive_item (it : TreeItem) : list path :=
  match it with Node id _ ch => id :: flat_map collect_recursive_item ch end.

Definition collect_recursive (items : list TreeItem) : list path :=
  flat_map collect_recursive_item items.

Definition collect_paths_from_items (a : App) : list path := collect_recursive (items a).

(** [fn enter_search_mode]; the text of [search_input] is not part of
    [App] here: the search handlers take its value as an argument. *)
Definition enter_search_mode (a : App) : App :=
  let a1 := set_search_index (set_search_matches (set_input_mode a Search) []) 0%nat in
  let a2 := set_saved_selection a1 (Some (selected (tree_state a1))) in
  let a3 := set_saved_view_items a2 (Some (items a2)) in
  set_search_paths_cache a3 (collect_paths_from_items a3).

(** [fn select_search_match]; [None] is the panic of an out-of-range
    [self.search_matches[self.search_index]]. *)
Definition select_search_match (a : App) : option App :=
  match search_matches a with
  | [] => Some a
  | _ =>
      match nth_error (search_matches a) (search_index a) with
      | Some (p, _) => Some (set_tree_state a (ts_select (tree_state a) [p]))
      | None => None
      end
  end.

Section Search.
Variable to_string_lossy : string -> list char.
Variable to_lowercase : list char -> list char.

(** The leaf of a search result: [format!("{} {}", icon, name)]. *)
Definition search_item (fs : FS) (p : path) : TreeItem :=
  let name := match file_name p with Some n => PName n | None => PDisplay p end in
  new_leaf p [PIcon (get_icon fs p false); PText " "; name].

(** [fn update_search_matches] of [App], with [query] the value of
    [search_input]. *)
Definition update_search_matches (fs : FS) (query : list char) (a : App) : App :=
  match query with
  | [] =>
      let a1 := set_search_index (set_search_matches a []) 0%nat in
      let a2 := match saved_view_items a1 with Some it => set_items a1 it | None => a1 end in
      set_tree_state a2 (ts_select_first tree_state_default)
  | _ =>
      let matches := Fuzzy.update_search_matches to_string_lossy to_lowercase query
                       (search_paths_cache a) in
      let a1 := set_items a (map (fun m => search_item fs m.1) matches) in
      set_tree_state (set_search_index (set_search_matches a1 matches) 0%nat)
        (ts_select_first tree_state_default)
  end.

(** The keys of [handle_search_key]: [Esc], [Enter], [Down] or [Tab],
    [Up] or [BackTab], and any other key, given by the value the input
    holds after it. *)
Inductive SearchKey := SEsc | SEnter | SDown | SUp | SEdit (query : list char).

Definition handle_search_key (fs : FS) (a : App) (k : SearchKey) : option App :=
  match k with
  | SEsc => Some (exit_search_mode a)
  | SEnter => jump_to_search_result fs a
  | SDown =>
      match search_matches a with
      | [] => Some a
      | _ => select_search_match
               (set_search_index a ((search_index a + 1) mod length (search_matches a)))
      end
  | SUp =>
      match search_matches a with
      | [] => Some a
      | _ => select_search_match
               (set_search_index a (match search_index a with
                                    | O => length (search_matches a) - 1
                                    | S i => i
                                    end))
      end
  | SEdit q => select_search_match (update_search_matches fs q a)
  end.

Fixpoint run_search_keys (fs : FS) (a : App) (ks : list SearchKey) : option App :=
  match ks with
  | [] => Some a
  | k :: rest => match handle_search_key fs a k with
                 | Some a1 => run_search_keys fs a1 rest
                 | None => None
                 end
  end.

End Search.

(** The branch shared by [toggle_view_mode], [switch_to_bookmarks_view] and
    [switch_to_recent_view] that returns to the tree view. *)
Definition restore_tree_view (fs : FS) (a : App) : App :=
  let a1 := set_view_mode a TreeView in
  match saved_view_items a1 with
  | Some it =>
      let a2 := rebuild_tree fs (set_items (set_saved_view_items a1 None) it) in
      let ts := match saved_selection a2 with
                | Some sel => ts_select tree_state_default sel
                | None => ts_select_first tree_state_default
                end in
      set_saved_selection (set_tree_state a2 ts) None
  | None =>
      let a2 := rebuild_tree fs a1 in
      set_tree_state a2 (ts_select_first (tree_state a2))
  end.

(** The branch that leaves for the list view [v], saving the selection
    and taking the items ([std::mem::take] leaves an empty [Vec]). *)
Definition leave_for_view (fs : FS) (v : ViewMode) (a : App) : App :=
  let a1 := set_saved_selection a (Some (selected (tree_state a))) in
  let a2 := set_items (set_saved_view_items a1 (Some (items a1))) [] in
  let a3 := rebuild_tree fs (set_view_mode a2 v) in
  set_tree_state a3 (ts_select_first tree_state_default).

Definition toggle_view_mode (fs : FS) (a : App) : App :=
  match view_mode a with
  | TreeView => leave_for_view fs Starred a
  | Starred | Bookmarks | Recent => restore_tree_view fs a
  end.

Definition switch_to_bookmarks_view (fs : FS) (a : App) : App :=
  match view_mode a with
  | Bookmarks => restore_tree_view fs a
  | _ => leave_for_view fs Bookmarks a
  end.

Definition switch_to_recent_view (fs : FS) (a : App) : App :=
  match view_mode a with
  | Recent => restore_tree_view fs a
  | _ => leave_for_view fs Recent a
  end.

(** [fn add_or_edit_bookmark] *)
Definition add_or_edit_bookmark (fs : FS) (a : App) : App :=
  match get_selected_path a with
  | Some s =>
      if is_dir fs s then
        let existing_label := match get_bookmark (persistent_state a) s with
                              | Some b => State.label b
                              | None => ""
                              end in
        set_input_mode (set_bookmark_input (set_bookmark_path a (Some s)) existing_label)
          BookmarkLabel
      else a
  | None => a
  end.

(** [KeyCode::Esc] in [handle_bookmark_label_key]. *)
Definition cancel_bookmark_label (a : App) : App :=
  set_bookmark_path (set_bookmark_input (set_input_mode a Normal) "") None.

(** [fn select_and_quit] *)
Definition select_and_quit (fs : FS) (a : App) : App :=
  match get_selected_path a with
  | Some s =>
      if is_dir fs s then
        set_should_quit
          (set_selected_dir (set_persistent_state a (add_recent (persistent_state a) s)) (Some s))
          true
      else a
  | None => a
  end.

End AppMore.

(* ================================================================== *)
(** * Proofs *)
(* ================================================================== *)

(** ** Sublists *)

Lemma sublist_cons_same_iff {A} (x : A) (l k : list A) :
  x :: l `sublist_of` x :: k <-> l `sublist_of` k.
Proof.
  split; [|by constructor].
  intros Hs. inversion Hs; subst; [done|].
  transitivity (x :: l); [by constructor|done].
Qed.

Lemma sublist_cons_other_iff {A} (x y : A) (l k : list A) :
  x <> y -> x :: l `sublist_of` y :: k <-> x :: l `sublist_of` k.
Proof.
  intros Hne. rewrite sublist_cons_r. split; [|by left].
  intros [?|(l' & [= ??] & ?)]; [done|congruence].
Qed.

Lemma in_take {A} n (x : A) l : In x (take n l) -> In x l.
Proof.
  revert n. induction l as [|y l IH]; intros [|n]; simpl; try tauto.
  intros [->|H]; [by left|right; eauto].
Qed.

Lemma in_insert_by {A} cmp (x y : A) l :
  In y (insert_by cmp x l) <-> x = y \/ In y l.
Proof.
  induction l as [|z l IH]; simpl; [tauto|].
  destruct (cmp x z); simpl; rewrite ?IH; tauto.
Qed.

Lemma in_sort_by {A} cmp (y : A) l : In y (sort_by cmp l) <-> In y l.
Proof.
  induction l as [|x l IH]; simpl; [tauto|].
  rewrite in_insert_by, IH. tauto.
Qed.

Module FuzzyProofs.
Import Fuzzy.

Lemma drop_nth_error {A} (n : list A) i x :
  nth_error n i = Some x -> drop i n = x :: drop (S i) n.
Proof.
  revert i. induction n as [|a n IH]; intros [|i] H; simpl in *; try done.
  - by injection H as ->.
  - by apply IH.
Qed.

(** The loop reaches the end of the needle exactly when the rest of the
    needle is a subsequence of the rest of the haystack. *)
Lemma scan_haystack_idx (n h : list char) (st : scan) :
  (needle_idx st <= length n)%nat ->
  needle_idx (scan_haystack n st h) = length n <->
  drop (needle_idx st) n `sublist_of` h.
Proof.
  revert st. induction h as [|c h IH]; intros st Hle; simpl.
  - rewrite sublist_nil_r. split.
    + intros ->. by rewrite drop_all.
    + intros Hd. pose proof (f_equal length Hd) as Hl.
      rewrite length_drop in Hl. simpl in Hl. lia.
  - unfold scan_char.
    destruct (nth_error n (needle_idx st)) as [nc|] eqn:Hnth.
    + assert (Hlt : (needle_idx st < length n)%nat) by (apply nth_error_Some; congruence).
      rewrite (drop_nth_error _ _ _ Hnth).
      destruct (N.eqb_spec nc c) as [->|Hne].
      * rewrite IH by (simpl; lia). simpl.
        by rewrite sublist_cons_same_iff.
      * rewrite IH by (simpl; lia). simpl.
        rewrite (sublist_cons_other_iff _ _ _ _ Hne).
        by rewrite (drop_nth_error _ _ _ Hnth).
    + apply nth_error_None in Hnth.
      rewrite IH by (simpl; lia). simpl.
      rewrite drop_ge by lia.
      split; intros; apply sublist_nil_l.
Qed.

Lemma fuzzy_score_some_iff (h q : list char) :
  is_Some (fuzzy_score h q) <-> q `sublist_of` h.
Proof.
  unfold fuzzy_score. destruct q as [|a q].
  - split; [intros; apply sublist_nil_l|by eexists].
  - pose proof (scan_haystack_idx (a :: q) h init_scan) as Hs.
    simpl in Hs. specialize (Hs ltac:(lia)).
    change (length (a :: q)) with (S (length q)).
    destruct (Nat.eqb_spec (needle_idx (scan_haystack (a :: q) init_scan h))
                (S (length q))) as [E|E].
    + rewrite <- Hs. split; [done|intros _; by eexists].
    + rewrite <- Hs. split; [intros [? Hx]; discriminate|done].
Qed.


Lemma in_score_candidates lossy lower qc cache p s :
  In (p, s) (score_candidates lossy lower qc cache) ->
  In p cache /\ exists name, file_name p = Some name /\
    fuzzy_score (lower (lossy name)) qc = Some s.
Proof.
  unfold score_candidates, search_name.
  induction cache as [|p' cache IH]; simpl; [tauto|].
  destruct (file_name p') as [name|] eqn:Hf; simpl; [|intros H; split; [right|]; apply IH, H].
  destruct (fuzzy_score (lower (lossy name)) qc) as [s'|] eqn:Hs; simpl.
  - intros [[= <- <-]|H]; [split; [by left|eauto]|].
    split; [right|]; apply IH, H.
  - intros H; split; [right|]; apply IH, H.
Qed.

Example fuzzy_main_rs : fuzzy_score (chars "main.rs") (chars "mrs") = Some 25.
Proof. reflexivity. Qed.

Example fuzzy_readme : fuzzy_score (chars "readme") (chars "xyz") = None.
Proof. reflexivity. Qed.

Example fuzzy_config_cr : fuzzy_score (chars "config.rs") (chars "cr") = Some 20.
Proof. reflexivity. Qed.

Example fuzzy_config_co : fuzzy_score (chars "config.rs") (chars "co") = Some 15.
Proof. reflexivity. Qed.

(** C1: with the query and the file name both lowercased (as
    [update_search_matches] does), [fuzzy_score] returns [Some] exactly
    when the lowercased query is a subsequence of the lowercased name, and
    every entry of the computed match list is such a qualifying candidate of
    the snapshot: a non-qualifying candidate is dropped entirely. *)
Theorem fuzzy_match_iff_subsequence
    (to_string_lossy : string -> list char) (to_lowercase : list char -> list char) :
  (forall q h : list char,
     is_Some (fuzzy_score (to_lowercase h) (to_lowercase q)) <->
     to_lowercase q `sublist_of` to_lowercase h) /\
  (forall (q : list char) (cache : list path) (p : path) (s : N),
     In (p, s) (update_search_matches to_string_lossy to_lowercase q cache) ->
     In p cache /\
     exists name, file_name p = Some name /\
       to_lowercase q `sublist_of` to_lowercase (to_string_lossy name)).
Proof.
  split.
  - intros q h. apply fuzzy_score_some_iff.
  - intros q cache p s. unfold update_search_matches.
    destruct q as [|a q]; [simpl; tauto|].
    intros Hin. apply in_take, in_sort_by, in_score_candidates in Hin.
    destruct Hin as (Hc & name & Hf & Hs). split; [done|].
    exists name. split; [done|]. apply fuzzy_score_some_iff. by eexists.
Qed.

(** C2 (as stated, refuted): the score of "cr" against "config.rs" is not
    below the score of "co". *)
Lemma fuzzy_cr_not_below_co :
  ~ (exists a b : N,
       fuzzy_score (chars "config.rs") (chars "cr") = Some a /\
       fuzzy_score (chars "config.rs") (chars "co") = Some b /\ a < b).
Proof.
  intros (a & b & Ha & Hb & Hlt). vm_compute in Ha, Hb.
  injection Ha as <-. injection Hb as <-. lia.
Qed.

(** C2 (amended): "cr" against "config.rs" scores 20 ('c' at the start
    earns 10, 'r' right after the separator '.' earns 10), strictly more
    than "co" (10 for 'c', 5 for the consecutive 'o'), which scores 15. *)
Theorem fuzzy_cr_above_co :
  fuzzy_score (chars "config.rs") (chars "cr") = Some 20 /\
  fuzzy_score (chars "config.rs") (chars "co") = Some 15 /\ 15 < 20.
Proof. split; [reflexivity|split; [reflexivity|lia]]. Qed.

(** C10: the scan starts in the state "previous character was a
    separator", so a query character matched at the first position of the
    haystack earns 10: the first step of the loop yields score 10, and the
    whole score is the rest of the scan started from that state. *)
Theorem fuzzy_first_position_bonus (c : char) (q h : list char) :
  scan_char (c :: q) init_scan c = mkScan 10 1 true (is_separator c) /\
  fuzzy_score (c :: h) (c :: q) =
    let st := scan_haystack (c :: q) (mkScan 10 1 true (is_separator c)) h in
    if Nat.eqb (needle_idx st) (length (c :: q)) then Some (score st) else None.
Proof.
  assert (Hstep : scan_char (c :: q) init_scan c = mkScan 10 1 true (is_separator c)).
  { unfold scan_char. simpl. by rewrite N.eqb_refl. }
  split; [exact Hstep|]. unfold fuzzy_score. simpl. by rewrite Hstep.
Qed.

End FuzzyProofs.

Module StateProofs.
Import State.

Lemma pop_back_while_take (fuel : nat) (l : list path) :
  (length l <= fuel + 50)%nat -> pop_back_while fuel l = take 50 l.
Proof.
  revert l. induction fuel as [|f IH]; intros l Hl; simpl.
  - rewrite take_ge; [done|lia].
  - destruct (Nat.ltb_spec 50 (length l)) as [Hgt|Hle].
    + rewrite removelast_firstn_len. rewrite IH.
      * rewrite take_take. f_equal. lia.
      * rewrite length_take. lia.
    + rewrite take_ge; [done|lia].
Qed.

Lemma filter_none {A} (P : A -> Prop) `{!forall x, Decision (P x)} (l : list A) :
  (forall x, In x l -> ~ P x) -> filter P l = [].
Proof.
  induction l as [|y l IH]; intros Hn; [done|].
  rewrite filter_cons_False; [apply IH; intros; apply Hn; by right|apply Hn; by left].
Qed.

(** C7: [add_recent p] puts [p] at the front, keeps exactly one copy of
    [p], keeps at most 50 entries, and the list is the first 50 of [p]
    followed by the other entries in their previous order, so the evicted
    entries are the oldest ones. *)
Theorem add_recent_move_to_front (st : PersistentState) (p : path) :
  let r := recent_dirs (add_recent st p) in
  head r = Some p /\
  filter (fun q => q = p) r = [p] /\
  (length r <= 50)%nat /\
  r = take 50 (p :: filter (fun q => q <> p) (recent_dirs st)).
Proof.
  unfold add_recent. cbv zeta. cbn [recent_dirs].
  rewrite pop_back_while_take by lia.
  set (rest := filter (fun q => q <> p) (recent_dirs st)).
  change (take 50 (p :: rest)) with (p :: take 49 rest).
  split; [done|]. split; [|split; [rewrite length_cons, length_take; lia|done]].
  rewrite filter_cons_True by done. f_equal.
  apply filter_none. intros q Hq. apply in_take in Hq.
  unfold rest in Hq. apply list_elem_of_In, list_elem_of_filter in Hq. tauto.
Qed.

(** C8: after [add_bookmark p label], there is exactly one bookmark for
    [p], it carries the new label and the current time (the clock reading
    in seconds since the epoch), and the bookmarks of the other paths are
    those of before, in the same order.  This holds in particular when [p]
    was already bookmarked. *)
Theorem add_bookmark_replaces (st : PersistentState) (p : path) (lbl : string)
    (now : option N) :
  let bs := bookmarks (add_bookmark st p lbl now) in
  filter (fun b => bm_path b = p) bs = [mkBookmark p lbl (epoch_secs now)] /\
  filter (fun b => bm_path b <> p) bs = filter (fun b => bm_path b <> p) (bookmarks st).
Proof.
  simpl. rewrite !filter_app.
  rewrite (filter_cons_True (fun b => bm_path b = p)) by done.
  rewrite (filter_cons_False (fun b => bm_path b <> p)) by (simpl; tauto).
  rewrite !filter_nil, app_nil_r. split; [|].
  - induction (bookmarks st) as [|b l IH]; [done|].
    rewrite (filter_cons (fun b => bm_path b <> p)).
    case_decide as Hb; [|done].
    simpl. rewrite filter_cons_False; [done|done].
  - rewrite list_filter_filter. apply list_filter_iff. tauto.
Qed.

End StateProofs.

(** ** Stable insertion sort: sortedness and stability *)
Module SortProofs.

Section SortBy.
Context {A : Type} (cmp : A -> A -> comparison).
Hypothesis cmp_antisym : forall x y, cmp x y = CompOpp (cmp y x).
Hypothesis cmp_le_trans :
  forall x y z, cmp x y <> Gt -> cmp y z <> Gt -> cmp x z <> Gt.

Definition le_by (x y : A) : Prop := cmp x y <> Gt.

Lemma insert_by_sorted (x : A) (l : list A) :
  StronglySorted le_by l -> StronglySorted le_by (insert_by cmp x l).
Proof.
  induction l as [|y l IH]; intros Hs; simpl.
  - repeat constructor.
  - inversion Hs as [|? ? Hl Hy]; subst.
    destruct (cmp x y) eqn:Hxy.
    + constructor; [by constructor|]. constructor; [unfold le_by; congruence|].
      eapply Forall_impl; [exact Hy|]. intros z Hz. eapply cmp_le_trans; [|exact Hz].
      unfold le_by; congruence.
    + constructor; [by constructor|]. constructor; [unfold le_by; congruence|].
      eapply Forall_impl; [exact Hy|]. intros z Hz. eapply cmp_le_trans; [|exact Hz].
      unfold le_by; congruence.
    + constructor; [by apply IH|].
      apply Forall_forall. intros z Hz. apply list_elem_of_In, in_insert_by in Hz as [<-|Hz].
      * unfold le_by. rewrite cmp_antisym, Hxy. discriminate.
      * apply (proj1 (Forall_forall _ _) Hy). by apply list_elem_of_In.
Qed.

Lemma sort_by_sorted (l : list A) : StronglySorted le_by (sort_by cmp l).
Proof.
  induction l as [|x l IH]; simpl; [constructor|]. by apply insert_by_sorted.
Qed.

(** Elements with the same key compare [Eq]: the sort keeps their order. *)
Context {K : Type} `{EqDecision K} (key : A -> K).
Hypothesis cmp_key : forall x y, key x = key y -> cmp x y = Eq.

Lemma insert_by_stable (x : A) (l : list A) (k : K) :
  filter (fun y => key y = k) (insert_by cmp x l) =
  filter (fun y => key y = k) (x :: l).
Proof.
  induction l as [|y l IH]; simpl; [done|].
  destruct (cmp x y) eqn:Hxy; [done|done|].
  assert (Hk : key x <> key y) by (intros E; rewrite cmp_key in Hxy; congruence).
  rewrite (filter_cons _ y), IH, !filter_cons.
  repeat case_decide; try done; congruence.
Qed.

Lemma sort_by_stable (l : list A) (k : K) :
  filter (fun y => key y = k) (sort_by cmp l) = filter (fun y => key y = k) l.
Proof.
  induction l as [|x l IH]; simpl; [done|].
  rewrite insert_by_stable, !filter_cons. case_decide; [by f_equal|done].
Qed.
End SortBy.

Lemma insert_by_congr {A} (c1 c2 : A -> A -> comparison) x l :
  (forall y, In y l -> c1 x y = c2 x y) -> insert_by c1 x l = insert_by c2 x l.
Proof.
  induction l as [|y l IH]; intros H; simpl; [done|].
  rewrite H by (by left). destruct (c2 x y); try done.
  f_equal. apply IH. intros; apply H; by right.
Qed.

Lemma sort_by_congr {A} (c1 c2 : A -> A -> comparison) l :
  (forall x y, In x l -> In y l -> c1 x y = c2 x y) -> sort_by c1 l = sort_by c2 l.
Proof.
  induction l as [|x l IH]; intros H; simpl; [done|].
  rewrite IH by (intros; apply H; by right).
  apply insert_by_congr. intros y Hy. apply in_sort_by in Hy.
  apply H; [by left|by right].
Qed.

Lemma omap_cons_eq {A B} (f : A -> option B) x l :
  omap f (x :: l) = match f x with Some y => y :: omap f l | None => omap f l end.
Proof. done. Qed.

Lemma omap_congr {A B} (f g : A -> option B) l :
  (forall x, In x l -> f x = g x) -> omap f l = omap g l.
Proof.
  induction l as [|x l IH]; intros H; [done|].
  rewrite !omap_cons_eq. rewrite H by (by left).
  rewrite IH by (intros; apply H; by right). done.
Qed.


Lemma sublist_strongly_sorted {A} (R : A -> A -> Prop) l1 l2 :
  l1 `sublist_of` l2 -> StronglySorted R l2 -> StronglySorted R l1.
Proof.
  induction 1 as [|x l1 l2 Hsub IH|x l1 l2 Hsub IH]; intros Hs; [constructor| |].
  - inversion Hs as [|? ? Hl Hf]; subst. constructor; [by apply IH|].
    apply Forall_forall. intros z Hz. apply (proj1 (Forall_forall _ _) Hf).
    by eapply elem_of_sublist.
  - inversion Hs; subst. by apply IH.
Qed.

Lemma strongly_sorted_impl {A} (R1 R2 : A -> A -> Prop) l :
  (forall x y, R1 x y -> R2 x y) -> StronglySorted R1 l -> StronglySorted R2 l.
Proof.
  intros HR. induction 1 as [|x l _ IH Hf]; constructor; [done|].
  eapply Forall_impl; [exact Hf|]. auto.
Qed.

Lemma list_filter_sublist {A} (f : A -> bool) l : List.filter f l `sublist_of` l.
Proof.
  induction l as [|x l IH]; simpl; [done|].
  destruct (f x); [by constructor|by constructor].
Qed.


End SortProofs.

Module TreeProofs.
Import Tree SortProofs.

(** ** The builder only depends on what it lists *)

Lemma format_entry_name_congr fs1 fs2 p e s sizes :
  is_dir fs1 p = is_dir fs2 p ->
  format_entry_name fs1 p e s sizes = format_entry_name fs2 p e s sizes.
Proof. intros Hd. unfold format_entry_name, get_icon. by rewrite Hd. Qed.

Lemma load_children_congr bi1 bi2 fs1 fs2 h d :
  read_dir fs1 d = read_dir fs2 d ->
  (forall n, is_dir fs1 (join d n) = is_dir fs2 (join d n)) ->
  (forall n, bi1 (join d n) = bi2 (join d n)) ->
  load_children_with bi1 fs1 h d = load_children_with bi2 fs2 h d.
Proof.
  intros Hr Hd Hb. unfold load_children_with. rewrite Hr.
  destruct (read_dir fs2 d) as [es|e]; [|done]. f_equal.
  set (entries := List.filter _ _).
  assert (Hin : forall x, In x entries -> exists n, x = join d n).
  { intros x Hx. unfold entries in Hx. apply filter_In in Hx as [Hx _].
    apply in_map_iff in Hx as (n & <- & _). by exists n. }
  unfold sort_entries. rewrite (sort_by_congr (cmp_entries fs1) (cmp_entries fs2)).
  - apply omap_congr. intros x Hx. apply in_sort_by, Hin in Hx as [n ->].
    by rewrite Hb.
  - intros x y Hx Hy. apply Hin in Hx as [n ->]. apply Hin in Hy as [m ->].
    unfold cmp_entries. by rewrite !Hd.
Qed.

Lemma build_tree_item_congr fs1 fs2 E S h sizes :
  (forall d, d ∈ E -> read_dir fs1 d = read_dir fs2 d) ->
  (forall d n, d ∈ E -> is_dir fs1 (join d n) = is_dir fs2 (join d n)) ->
  forall fuel p, is_dir fs1 p = is_dir fs2 p ->
  build_tree_item fuel fs1 E S h sizes p = build_tree_item fuel fs2 E S h sizes p.
Proof.
  intros Hr Hdir fuel. induction fuel as [|f IH]; intros p Hp; [done|].
  cbn [build_tree_item]. rewrite (format_entry_name_congr fs1 fs2) by done.
  rewrite Hp. destruct (is_dir fs2 p) eqn:Hdp; [|done].
  case_bool_decide as He; [|done]. simpl.
  rewrite (load_children_congr _ (build_tree_item f fs2 E S h sizes) fs1 fs2);
    [done|by apply Hr|intros n; by apply Hdir|].
  intros n. apply IH. by apply Hdir.
Qed.

(** C3: a build only lists the root and the expanded directories: two
    filesystems that agree on the listings of the root and of every
    expanded directory (names and entry kinds) give the same forest, so the
    contents of a directory outside the expanded set cannot influence it. *)
Theorem build_tree_reads_only_expanded (fs1 fs2 : FS) (root : path)
    (E S : gset path) (h : bool) (sizes : option SizeCache) :
  (forall d, d = root \/ d ∈ E -> read_dir fs1 d = read_dir fs2 d) ->
  (forall d n, d = root \/ d ∈ E -> is_dir fs1 (join d n) = is_dir fs2 (join d n)) ->
  build_tree fs1 root E S h sizes = build_tree fs2 root E S h sizes.
Proof.
  intros Hr Hd. unfold build_tree.
  apply load_children_congr; [by apply Hr; left|by intros; apply Hd; left|].
  intros n. apply build_tree_item_congr; auto.
Qed.

(** ** Ordering of siblings *)












Lemma build_tree_item_id fuel fs E S h sizes p it :
  build_tree_item fuel fs E S h sizes p = Ok it -> item_id it = p.
Proof.
  destruct fuel as [|f]; cbn [build_tree_item]; [done|].
  destruct (_ && _); [|by intros [= <-]].
  destruct (load_children_with _ _ _ _) as [ch|e]; [|by intros [= <-]].
  unfold tree_item_new. case_bool_decide; [by intros [= <-]|done].
Qed.





(** C3 witness: a build that expands nothing gives the same forest whether
    or not the collapsed "src" can be listed. *)
Lemma build_tree_reads_only_expanded_witness :
  (forall d, d = [] \/ d ∈ (∅ : gset path) ->
     read_dir Fixtures.sample_fs d = read_dir Fixtures.sample_fs_locked d) /\
  (forall d n, d = [] \/ d ∈ (∅ : gset path) ->
     is_dir Fixtures.sample_fs (join d n) = is_dir Fixtures.sample_fs_locked (join d n)) /\
  build_tree Fixtures.sample_fs [] ∅ ∅ false None =
  build_tree Fixtures.sample_fs_locked [] ∅ ∅ false None.
Proof.
  assert (Hr : forall d, d = [] \/ d ∈ (∅ : gset path) ->
     read_dir Fixtures.sample_fs d = read_dir Fixtures.sample_fs_locked d).
  { intros d [->|Hd]; [reflexivity|set_solver]. }
  assert (Hd : forall d n, d = [] \/ d ∈ (∅ : gset path) ->
     is_dir Fixtures.sample_fs (join d n) = is_dir Fixtures.sample_fs_locked (join d n)).
  { intros; reflexivity. }
  split; [exact Hr|split; [exact Hd|]].
  exact (build_tree_reads_only_expanded _ _ _ _ _ _ _ Hr Hd).
Defined.

End TreeProofs.

(** ** The controller *)
Module AppProofs.
Import State Tree Fixtures App AppFixtures.

(** *** Rebuilds *)

Lemma rebuild_tree_fields fs a :
  dir_sizes (rebuild_tree fs a) = dir_sizes a /\
  size_worker (rebuild_tree fs a) = size_worker a /\
  builder fs (rebuild_tree fs a) = builder fs a.
Proof.
  unfold rebuild_tree. destruct (builder fs a) eqn:E; [|done].
  rewrite <- E. by destruct a.
Qed.

(** The forest is the one the builder makes of the current state. *)
Definition forest_current (fs : FS) (a : App) : Prop :=
  forall f, builder fs a = Ok f -> items a = f.

Lemma forest_current_rebuild fs a : forest_current fs (rebuild_tree fs a).
Proof.
  intros f. rewrite (proj2 (proj2 (rebuild_tree_fields fs a))).
  unfold rebuild_tree. intros ->. by destruct a.
Qed.

Ltac field_update x := let H := fresh in let f := fresh in let Hf := fresh in
  intros H f Hf; destruct x; apply H, Hf.

Lemma forest_current_tree_state fs a v :
  forest_current fs a -> forest_current fs (set_tree_state a v).
Proof. field_update a. Qed.
Lemma forest_current_input_mode fs a v :
  forest_current fs a -> forest_current fs (set_input_mode a v).
Proof. field_update a. Qed.
Lemma forest_current_bookmark_input fs a v :
  forest_current fs a -> forest_current fs (set_bookmark_input a v).
Proof. field_update a. Qed.
Lemma forest_current_search_matches fs a v :
  forest_current fs a -> forest_current fs (set_search_matches a v).
Proof. field_update a. Qed.
Lemma forest_current_search_index fs a v :
  forest_current fs a -> forest_current fs (set_search_index a v).
Proof. field_update a. Qed.
Lemma forest_current_search_paths_cache fs a v :
  forest_current fs a -> forest_current fs (set_search_paths_cache a v).
Proof. field_update a. Qed.

Create HintDb forest.
#[local] Hint Resolve forest_current_rebuild forest_current_tree_state
  forest_current_input_mode forest_current_bookmark_input
  forest_current_search_matches forest_current_search_index
  forest_current_search_paths_cache : forest.

(** When the builder fails, the forest is [x]. *)
Definition forest_kept (fs : FS) (x : list TreeItem) (a : App) : Prop :=
  forall e, builder fs a = Err e -> items a = x.

(** The forest an action starts from: the current one, or for a search
    confirmation the tree saved when search mode was entered. *)
Definition forest_before (a : App) (act : Action) : list TreeItem :=
  match act with
  | SearchConfirm => match saved_view_items a with Some it => it | None => items a end
  | _ => items a
  end.

Lemma forest_kept_rebuild fs a x : items a = x -> forest_kept fs x (rebuild_tree fs a).
Proof.
  intros Hx e. rewrite (proj2 (proj2 (rebuild_tree_fields fs a))).
  unfold rebuild_tree. intros ->. exact Hx.
Qed.

Lemma items_request a p : items (request_size_for_dir a p) = items a.
Proof. unfold request_size_for_dir. by destruct (dir_sizes a !! p). Qed.

Lemma forest_kept_tree_state fs x a v :
  forest_kept fs x a -> forest_kept fs x (set_tree_state a v).
Proof. intros H e He. destruct a. exact (H e He). Qed.
Lemma forest_kept_input_mode fs x a v :
  forest_kept fs x a -> forest_kept fs x (set_input_mode a v).
Proof. intros H e He. destruct a. exact (H e He). Qed.
Lemma forest_kept_bookmark_input fs x a v :
  forest_kept fs x a -> forest_kept fs x (set_bookmark_input a v).
Proof. intros H e He. destruct a. exact (H e He). Qed.
Lemma forest_kept_search_matches fs x a v :
  forest_kept fs x a -> forest_kept fs x (set_search_matches a v).
Proof. intros H e He. destruct a. exact (H e He). Qed.
Lemma forest_kept_search_index fs x a v :
  forest_kept fs x a -> forest_kept fs x (set_search_index a v).
Proof. intros H e He. destruct a. exact (H e He). Qed.
Lemma forest_kept_search_paths_cache fs x a v :
  forest_kept fs x a -> forest_kept fs x (set_search_paths_cache a v).
Proof. intros H e He. destruct a. exact (H e He). Qed.

Create HintDb kept.
#[local] Hint Resolve forest_kept_tree_state forest_kept_input_mode
  forest_kept_bookmark_input forest_kept_search_matches forest_kept_search_index
  forest_kept_search_paths_cache : kept.
#[local] Hint Extern 1 (forest_kept _ _ (rebuild_tree _ _)) =>
  apply forest_kept_rebuild; rewrite ?items_request; reflexivity : kept.

(** *** The size cache and the request queue *)

(** From [a] to [b], an entry of [p] in the cache survives, and once it is
    there, [p] waits in the request queue no more often than before. *)
Definition keeps (p : path) (a b : App) : Prop :=
  is_Some (dir_sizes a !! p) ->
  is_Some (dir_sizes b !! p) /\ (queued p b <= queued p a)%nat.

Lemma keeps_refl p a : keeps p a a.
Proof. split; [done | lia]. Qed.

Lemma keeps_trans p a b c : keeps p a b -> keeps p b c -> keeps p a c.
Proof. intros H1 H2 Ha. destruct (H1 Ha) as [Hb Hq]. destruct (H2 Hb). split; [done | lia]. Qed.

Lemma keeps_rebuild p fs a b : keeps p a b -> keeps p a (rebuild_tree fs b).
Proof.
  intros H. destruct (rebuild_tree_fields fs b) as (Hd & Hw & _).
  unfold keeps, queued. rewrite Hd, Hw. exact H.
Qed.

Ltac keeps_update x := let H := fresh in intros H; destruct x; exact H.

Lemma keeps_tree_state p a b v : keeps p a b -> keeps p a (set_tree_state b v).
Proof. keeps_update b. Qed.
Lemma keeps_items p a b v : keeps p a b -> keeps p a (set_items b v).
Proof. keeps_update b. Qed.
Lemma keeps_persistent_state p a b v : keeps p a b -> keeps p a (set_persistent_state b v).
Proof. keeps_update b. Qed.
Lemma keeps_input_mode p a b v : keeps p a b -> keeps p a (set_input_mode b v).
Proof. keeps_update b. Qed.
Lemma keeps_search_matches p a b v : keeps p a b -> keeps p a (set_search_matches b v).
Proof. keeps_update b. Qed.
Lemma keeps_search_index p a b v : keeps p a b -> keeps p a (set_search_index b v).
Proof. keeps_update b. Qed.
Lemma keeps_search_paths_cache p a b v : keeps p a b -> keeps p a (set_search_paths_cache b v).
Proof. keeps_update b. Qed.
Lemma keeps_bookmark_input p a b v : keeps p a b -> keeps p a (set_bookmark_input b v).
Proof. keeps_update b. Qed.
Lemma keeps_bookmark_path p a b v : keeps p a b -> keeps p a (set_bookmark_path b v).
Proof. keeps_update b. Qed.
Lemma keeps_saved_view_items p a b v : keeps p a b -> keeps p a (set_saved_view_items b v).
Proof. keeps_update b. Qed.
Lemma keeps_saved_selection p a b v : keeps p a b -> keeps p a (set_saved_selection b v).
Proof. keeps_update b. Qed.

Lemma filter_eq_other (p q : path) : q <> p -> filter (fun r => r = p) [q] = [].
Proof. intros Hne. rewrite filter_cons_False; [done | exact Hne]. Qed.

Lemma keeps_request p a b q : keeps p a b -> keeps p a (request_size_for_dir b q).
Proof.
  intros H. eapply keeps_trans; [exact H|]. clear H a.
  unfold request_size_for_dir. destruct (dir_sizes b !! q) eqn:Eq; [apply keeps_refl|].
  intros Hp. assert (q <> p) as Hne by (intros ->; rewrite Eq in Hp; by destruct Hp).
  destruct b as [? ? ? ? ? ? ? ? ? ? ? ? ? ? ds w ? ?]; cbn in *. split.
  - unfold set_size_worker, set_dir_sizes; cbn [dir_sizes].
    rewrite lookup_insert_ne; [exact Hp | congruence].
  - unfold queued, set_size_worker, set_dir_sizes, request_size; cbn [size_worker].
    destruct (Nat.ltb (length (request_q w)) channel_capacity); cbn [request_q]; [|lia].
    rewrite filter_app, filter_eq_other, app_nil_r by done. lia.
Qed.

Create HintDb keeps.
#[local] Hint Resolve keeps_refl keeps_rebuild keeps_tree_state keeps_items
  keeps_persistent_state keeps_input_mode keeps_search_matches keeps_search_index
  keeps_search_paths_cache keeps_bookmark_input keeps_bookmark_path
  keeps_saved_view_items keeps_saved_selection keeps_request : keeps.

Lemma run_action_keeps p fs now a act a' :
  run_action fs now a act = Some a' -> keeps p a a'.
Proof.
  destruct act; cbn; intros Hr; simplify_eq;
    unfold expand_selected, collapse_or_parent, toggle_selected, toggle_star,
      toggle_hidden, confirm_bookmark_label, jump_to_search_result, exit_search_mode in *;
    cbv zeta in *; repeat case_match; simplify_eq; auto 20 with keeps.
Qed.

Lemma worker_step_queued p w n :
  (length (filter (fun q => q = p) (request_q (worker_step w n)))
   <= length (filter (fun q => q = p) (request_q w)))%nat.
Proof.
  unfold worker_step. destruct (request_q w) as [|q rest] eqn:E; [rewrite E; lia|].
  destruct (Nat.ltb (length (result_q w)) channel_capacity); cbn [request_q]; [|rewrite E; lia].
  rewrite filter_cons. case_decide; cbn; lia.
Qed.

Lemma foldl_insert_is_Some (rs : list (path * N)) (m : SizeCache) p :
  is_Some (m !! p) ->
  is_Some (foldl (fun m r => <[ r.1 := Some r.2 ]> m) m rs !! p).
Proof.
  revert m. induction rs as [|r rs IH]; intros m Hm; cbn; [done|].
  apply IH. apply lookup_insert_is_Some. destruct (decide (r.1 = p)); [by left | by right].
Qed.

Lemma step_keeps p fs a ev a' : step fs a ev = Some a' -> keeps p a a'.
Proof.
  destruct ev as [now act|n|]; cbn; intros Hs.
  - exact (run_action_keeps p fs now a act a' Hs).
  - simplify_eq. intros Hp. destruct a; cbn in *. split; [done|].
    unfold queued; cbn. apply worker_step_queued.
  - simplify_eq. intros Hp. destruct a; cbn in *. split; [|unfold queued; cbn; lia].
    by apply foldl_insert_is_Some.
Qed.

Lemma run_events_keeps p fs a evs a' : run_events fs a evs = Some a' -> keeps p a a'.
Proof.
  revert a. induction evs as [|ev evs IH]; intros a; cbn.
  - intros [= <-]. apply keeps_refl.
  - destruct (step fs a ev) as [a1|] eqn:Es; [|done].
    intros Hr. eapply keeps_trans; [exact (step_keeps p fs a ev a1 Es) | exact (IH a1 Hr)].
Qed.

(** *** C4 *)

(** Claim C4 (amended): after a collapse, a space toggle or double click
    (expand or collapse), a star toggle, a hidden-files toggle, a bookmark
    label confirmation or a search confirmation that takes effect, if the
    builder succeeds on the new root-or-view, persistent state and size
    cache, the controller's forest is exactly the builder's result; if the
    builder fails, the forest is the one the action started from: the
    previous forest, or after a search confirmation the tree saved when
    search mode was entered. *)
Theorem mutating_action_rebuilds fs now a act a' :
  act <> Expand ->
  mutates fs a act = true ->
  run_action fs now a act = Some a' ->
  (forall f, builder fs a' = Ok f -> items a' = f) /\
  (forall e, builder fs a' = Err e -> items a' = forest_before a act).
Proof.
  intros Hact Hm Hr. split.
  - change (forest_current fs a').
    destruct act; [done| | | | | |]; cbn in Hr, Hm; simplify_eq;
      unfold collapse_or_parent, toggle_selected, toggle_star, toggle_hidden,
        confirm_bookmark_label, jump_to_search_result in *;
      cbv zeta in *; repeat case_match; simplify_eq; auto 20 with forest.
  - change (forest_kept fs (forest_before a act) a').
    destruct act; [done| | | | | |]; cbn [forest_before]; cbn in Hr, Hm; simplify_eq;
      unfold collapse_or_parent, toggle_selected, toggle_star, toggle_hidden,
        confirm_bookmark_label, jump_to_search_result in *;
      cbv zeta in *; repeat case_match; simplify_eq; auto 20 with kept.
Qed.

Lemma mutating_action_rebuilds_witness :
  (mutates sample_fs sample_app Toggle = true /\
   run_action sample_fs None sample_app Toggle = Some (toggle_selected sample_fs sample_app) /\
   builder sample_fs (toggle_selected sample_fs sample_app) = Ok sample_items_src_open /\
   items (toggle_selected sample_fs sample_app) = sample_items_src_open) /\
  (mutates locked_root_fs sample_app Hidden = true /\
   run_action locked_root_fs None sample_app Hidden =
     Some (toggle_hidden locked_root_fs sample_app) /\
   builder locked_root_fs (toggle_hidden locked_root_fs sample_app) = Err PermissionDenied /\
   items (toggle_hidden locked_root_fs sample_app) = items sample_app).
Proof.
  split.
  - split; [vm_compute; reflexivity|]. split; [reflexivity|].
    split; [vm_compute; reflexivity|].
    refine (proj1 (mutating_action_rebuilds sample_fs None sample_app Toggle _ _ _ _) _ _);
      [discriminate | vm_compute; reflexivity | reflexivity | vm_compute; reflexivity].
  - split; [reflexivity|]. split; [reflexivity|]. split; [vm_compute; reflexivity|].
    refine (proj2 (mutating_action_rebuilds locked_root_fs None sample_app Hidden _ _ _ _)
              PermissionDenied _);
      [discriminate | reflexivity | reflexivity | vm_compute; reflexivity].
Defined.

(** Claim C4, as stated, fails twice: toggling hidden files once the root
    cannot be listed leaves the old forest in place while the builder
    fails; and the expand key rebuilds before it records the pending size
    of the directory, so the new forest lacks the " [...]" the builder
    now gives it. *)
Lemma forest_not_builder_output :
  (mutates locked_root_fs sample_app Hidden = true /\
   builder locked_root_fs (toggle_hidden locked_root_fs sample_app) = Err PermissionDenied /\
   items (toggle_hidden locked_root_fs sample_app) = items sample_app) /\
  (mutates sample_fs sample_app Expand = true /\
   builder sample_fs (expand_selected sample_fs sample_app) = Ok sample_items_src_open /\
   items (expand_selected sample_fs sample_app) <> sample_items_src_open).
Proof.
  split; [split; [reflexivity | split; vm_compute; reflexivity]|].
  split; [vm_compute; reflexivity|]. split; [vm_compute; reflexivity|].
  vm_compute. congruence.
Qed.

(** *** C6 *)

Lemma queued_zero p a : queued p a = 0%nat -> p ∉ request_q (size_worker a).
Proof.
  unfold queued. intros H. apply (filter_nil_not_elem_of (fun q => q = p)); [|done].
  by apply nil_length_inv.
Qed.

(** A directory that is pending in the cache and in neither queue. *)
Definition stays_pending (p : path) (b : App) : Prop :=
  dir_sizes b !! p = Some None /\ (p ∉ request_q (size_worker b)) /\
  (p ∉ map fst (result_q (size_worker b))).

Ltac pending_update x := let H := fresh in intros H; destruct x; exact H.

Lemma stays_pending_tree_state p b v : stays_pending p b -> stays_pending p (set_tree_state b v).
Proof. pending_update b. Qed.
Lemma stays_pending_items p b v : stays_pending p b -> stays_pending p (set_items b v).
Proof. pending_update b. Qed.
Lemma stays_pending_persistent_state p b v :
  stays_pending p b -> stays_pending p (set_persistent_state b v).
Proof. pending_update b. Qed.
Lemma stays_pending_input_mode p b v : stays_pending p b -> stays_pending p (set_input_mode b v).
Proof. pending_update b. Qed.
Lemma stays_pending_search_matches p b v :
  stays_pending p b -> stays_pending p (set_search_matches b v).
Proof. pending_update b. Qed.
Lemma stays_pending_search_index p b v :
  stays_pending p b -> stays_pending p (set_search_index b v).
Proof. pending_update b. Qed.
Lemma stays_pending_search_paths_cache p b v :
  stays_pending p b -> stays_pending p (set_search_paths_cache b v).
Proof. pending_update b. Qed.
Lemma stays_pending_bookmark_input p b v :
  stays_pending p b -> stays_pending p (set_bookmark_input b v).
Proof. pending_update b. Qed.
Lemma stays_pending_bookmark_path p b v :
  stays_pending p b -> stays_pending p (set_bookmark_path b v).
Proof. pending_update b. Qed.
Lemma stays_pending_saved_view_items p b v :
  stays_pending p b -> stays_pending p (set_saved_view_items b v).
Proof. pending_update b. Qed.
Lemma stays_pending_saved_selection p b v :
  stays_pending p b -> stays_pending p (set_saved_selection b v).
Proof. pending_update b. Qed.

Lemma stays_pending_rebuild p fs b : stays_pending p b -> stays_pending p (rebuild_tree fs b).
Proof.
  unfold stays_pending. destruct (rebuild_tree_fields fs b) as (-> & -> & _). done.
Qed.

Lemma stays_pending_request p b q :
  stays_pending p b -> stays_pending p (request_size_for_dir b q).
Proof.
  intros (Hs & Hrq & Hres). unfold request_size_for_dir.
  destruct (dir_sizes b !! q) eqn:Eq; [done|].
  assert (q <> p) as Hne by (intros ->; congruence).
  destruct b as [? ? ? ? ? ? ? ? ? ? ? ? ? ? ds w ? ?]; cbn in *.
  unfold stays_pending, set_size_worker, set_dir_sizes, request_size; cbn [dir_sizes size_worker].
  split; [rewrite lookup_insert_ne; [exact Hs | congruence]|].
  destruct (Nat.ltb (length (request_q w)) channel_capacity); cbn [request_q result_q];
    [|done].
  split; [|done]. rewrite elem_of_app, list_elem_of_singleton. intros [?|?]; [done|congruence].
Qed.

Create HintDb pending.
#[local] Hint Resolve stays_pending_tree_state stays_pending_items
  stays_pending_persistent_state stays_pending_input_mode stays_pending_search_matches
  stays_pending_search_index stays_pending_search_paths_cache stays_pending_bookmark_input
  stays_pending_bookmark_path stays_pending_saved_view_items stays_pending_saved_selection
  stays_pending_rebuild stays_pending_request : pending.

Lemma run_action_stays_pending p fs now a act a' :
  stays_pending p a -> run_action fs now a act = Some a' -> stays_pending p a'.
Proof.
  intros Ha. destruct act; cbn; intros Hr; simplify_eq;
    unfold expand_selected, collapse_or_parent, toggle_selected, toggle_star,
      toggle_hidden, confirm_bookmark_label, jump_to_search_result, exit_search_mode in *;
    cbv zeta in *; repeat case_match; simplify_eq; auto 20 with pending.
Qed.

Lemma foldl_insert_other (rs : list (path * N)) (m : SizeCache) p :
  p ∉ map fst rs -> foldl (fun m r => <[ r.1 := Some r.2 ]> m) m rs !! p = m !! p.
Proof.
  revert m. induction rs as [|r rs IH]; intros m Hp; cbn; [done|].
  cbn in Hp. rewrite elem_of_cons in Hp.
  rewrite IH by tauto. rewrite lookup_insert_ne; [done|]. intros E. apply Hp. by left.
Qed.

Lemma step_stays_pending p fs a ev a' :
  stays_pending p a -> step fs a ev = Some a' -> stays_pending p a'.
Proof.
  intros Ha. destruct ev as [now act|n|]; cbn; intros Hs.
  - exact (run_action_stays_pending p fs now a act a' Ha Hs).
  - simplify_eq. destruct Ha as (Hc & Hrq & Hres).
    destruct a as [? ? ? ? ? ? ? ? ? ? ? ? ? ? ds w ? ?]; cbn in *.
    unfold stays_pending; cbn. split; [exact Hc|].
    unfold worker_step. destruct (request_q w) as [|q rest] eqn:E; [rewrite E; done|].
    rewrite elem_of_cons in Hrq.
    destruct (Nat.ltb (length (result_q w)) channel_capacity); cbn [request_q result_q];
      [|rewrite E, elem_of_cons; done].
    split; [tauto|]. rewrite map_app, elem_of_app. cbn. rewrite elem_of_cons, elem_of_nil.
    intros [?|[?|[]]]; [done|]. subst. tauto.
  - simplify_eq. destruct Ha as (Hc & Hrq & Hres).
    destruct a as [? ? ? ? ? ? ? ? ? ? ? ? ? ? ds w ? ?]; cbn in *.
    unfold stays_pending; cbn. split; [|split; [exact Hrq|apply not_elem_of_nil]].
    rewrite foldl_insert_other by exact Hres. exact Hc.
Qed.

Lemma run_events_stays_pending p fs a evs a' :
  stays_pending p a -> run_events fs a evs = Some a' -> stays_pending p a'.
Proof.
  revert a. induction evs as [|ev evs IH]; intros a Ha; cbn.
  - by intros [= <-].
  - destruct (step fs a ev) as [a1|] eqn:Es; [|done].
    intros Hr. exact (IH a1 (step_stays_pending p fs a ev a1 Ha Es) Hr).
Qed.

(** Claim C6 (amended): a dropped size request is dropped for the whole
    session.  When the request queue is full, [request_size_for_dir]
    still records the directory as pending ([None]) in the size cache and
    leaves the queue as it is; after any later events (expansions
    included) the directory is still pending and is in neither queue, so
    it is never enqueued again.  A directory without a cache entry is in
    no queue in every state a session reaches (see [size_pipeline_sound]),
    which the last two hypotheses state. *)
Theorem size_request_dropped_for_good fs a evs a' p :
  dir_sizes a !! p = None ->
  (channel_capacity <= length (request_q (size_worker a)))%nat ->
  (p ∉ request_q (size_worker a)) -> (p ∉ map fst (result_q (size_worker a))) ->
  dir_sizes (request_size_for_dir a p) !! p = Some None /\
  size_worker (request_size_for_dir a p) = size_worker a /\
  (run_events fs (request_size_for_dir a p) evs = Some a' ->
   dir_sizes a' !! p = Some None /\ (p ∉ request_q (size_worker a')) /\
   (p ∉ map fst (result_q (size_worker a')))).
Proof.
  intros Hnone Hfull Hrq Hres.
  assert (Hreq : dir_sizes (request_size_for_dir a p) !! p = Some None /\
                 size_worker (request_size_for_dir a p) = size_worker a).
  { unfold request_size_for_dir. rewrite Hnone. destruct a; cbn in *.
    rewrite lookup_insert_eq. split; [done|].
    unfold request_size. destruct (Nat.ltb_spec (length (request_q size_worker0)) channel_capacity);
      [lia | done]. }
  destruct Hreq as [Hs Hw]. split; [done|]. split; [done|].
  intros Hrun. apply (run_events_stays_pending p fs (request_size_for_dir a p) evs a'); [|exact Hrun].
  unfold stays_pending. rewrite Hw. tauto.
Qed.

Lemma size_request_dropped_for_good_witness :
  dir_sizes busy_app !! ["src"] = None /\
  (channel_capacity <= length (request_q (size_worker busy_app)))%nat /\
  (["src"] ∉ request_q (size_worker busy_app)) /\
  (["src"] ∉ map fst (result_q (size_worker busy_app))) /\
  match run_events sample_fs (request_size_for_dir busy_app ["src"]) drain_and_reexpand with
  | Some a' => dir_sizes a' !! ["src"] = Some None /\ (["src"] ∉ request_q (size_worker a'))
  | None => False
  end.
Proof.
  assert (Hrq : ["src"] ∉ request_q (size_worker busy_app)).
  { unfold busy_app, app_at, busy_queue; cbn [size_worker request_q].
    rewrite list_elem_of_In, in_map_iff. intros (i & [=] & _). }
  split; [reflexivity|]. split; [vm_compute; lia|]. split; [exact Hrq|].
  split; [apply not_elem_of_nil|].
  destruct (run_events sample_fs (request_size_for_dir busy_app ["src"]) drain_and_reexpand)
    as [a'|] eqn:E; [|vm_compute in E; discriminate].
  pose proof (size_request_dropped_for_good sample_fs busy_app drain_and_reexpand a' ["src"]
                eq_refl ltac:(vm_compute; lia) Hrq (not_elem_of_nil _)) as H.
  destruct H as (_ & _ & H). destruct (H E) as (H1 & H2 & _). split; [exact H1|exact H2].
Defined.

(** Claim C6, as stated, is false: with the request queue full, expanding
    "src" drops its size request, and no later session (for instance one
    that drains the queue, then collapses and re-expands "src") ever puts
    "src" in the request queue again. *)
Lemma dropped_request_not_reenqueued :
  let a1 := toggle_selected sample_fs busy_app in
  mutates sample_fs busy_app Toggle = true /\
  (["src"] ∉ request_q (size_worker a1)) /\
  dir_sizes a1 !! ["src"] = Some None /\
  (exists a2, run_events sample_fs a1 drain_and_reexpand = Some a2 /\
     request_q (size_worker a2) = [] /\ (["src"] ∈ expanded_dirs (persistent_state a2))) /\
  (forall evs a', run_events sample_fs a1 evs = Some a' -> ["src"] ∉ request_q (size_worker a')).
Proof.
  intros a1.
  assert (Hs : dir_sizes a1 !! ["src"] = Some None) by (vm_compute; reflexivity).
  assert (H0 : queued ["src"] a1 = 0%nat) by (vm_compute; reflexivity).
  split; [vm_compute; reflexivity|]. split; [by apply queued_zero|]. split; [done|]. split.
  - eexists. split; [vm_compute; reflexivity|].
    split; [vm_compute; reflexivity|]. vm_compute. set_solver.
  - intros evs a' Hrun. apply queued_zero.
    destruct (run_events_keeps ["src"] sample_fs a1 evs a' Hrun) as [_ Hq]; [exists None; exact Hs|].
    lia.
Qed.

End AppProofs.

(** ** Shutdown *)
Module ShutdownProofs.
Import State Tree Shutdown.

(** Claim C5 (amended): a failure of [save()] at clean shutdown is not
    swallowed.  When the event loop ended normally and [save] fails with
    [e], [App::run] returns [e]; [main] still restores the terminal and
    prints the selected directory, then returns [e], so the process
    reports [e] on stderr and exits with status 1. *)
Theorem save_failure_reaches_exit env st sel e :
  save env st = Err e ->
  run_exit (Ok tt) env st = Err e /\
  main_exit (run_exit (Ok tt) env st) (Ok tt) sel =
    mkExit (match sel with Some d => [d] | None => [] end) (Some e) 1.
Proof.
  intros Hs. unfold run_exit. cbn. rewrite Hs. split; [done|].
  unfold main_exit. by destruct sel.
Qed.

Lemma save_failure_reaches_exit_witness :
  save readonly_env no_state = Err PermissionDenied /\
  run_exit (Ok tt) readonly_env no_state = Err PermissionDenied /\
  main_exit (run_exit (Ok tt) readonly_env no_state) (Ok tt) (Some ["tmp"]) =
    mkExit [["tmp"]] (Some PermissionDenied) 1.
Proof.
  split; [reflexivity|].
  apply (save_failure_reaches_exit readonly_env no_state (Some ["tmp"]) PermissionDenied).
  reflexivity.
Defined.

(** Claim C5, as stated, is false: when the data directory cannot be
    created, the quit the user asked for ends in an error report and exit
    status 1. *)
Lemma save_failure_not_swallowed :
  save readonly_env no_state = Err PermissionDenied /\
  stderr_report (main_exit (run_exit (Ok tt) readonly_env no_state) (Ok tt) (Some ["tmp"]))
    = Some PermissionDenied /\
  exit_status (main_exit (run_exit (Ok tt) readonly_env no_state) (Ok tt) (Some ["tmp"])) = 1.
Proof. split; [reflexivity|]. split; reflexivity. Qed.

End ShutdownProofs.

(* ================================================================== *)
(** * Further properties of the code *)

(** ** Fuzzy matching *)
Module FuzzyFacts.
Import Fuzzy SortProofs.

Lemma scan_haystack_bounds (q h : list char) (st : scan) :
  10 * N.of_nat (length q) < 65536 ->
  (needle_idx st <= length q)%nat ->
  N.of_nat (needle_idx st) <= score st <= 10 * N.of_nat (needle_idx st) ->
  let st' := scan_haystack q st h in
  (needle_idx st' <= length q)%nat /\
  N.of_nat (needle_idx st') <= score st' <= 10 * N.of_nat (needle_idx st').
Proof.
  intros Hq. revert st. induction h as [|c h IH]; intros st Hi Hs; [done|].
  cbn [scan_haystack]. apply IH; unfold scan_char;
    destruct (nth_error q (needle_idx st)) as [nc|] eqn:Hn; cbn;
    try (destruct (nc =? c)); cbn; try done.
  - assert (needle_idx st < length q)%nat by (apply nth_error_Some; congruence). lia.
  - assert (needle_idx st < length q)%nat by (apply nth_error_Some; congruence).
    assert (Hb : forall b, 1 <= b <= 10 -> u16_add (score st) b = score st + b).
    { intros b Hb. unfold u16_add. apply N.mod_small. lia. }
    destruct (prev_was_separator st), (prev_match st);
      rewrite Hb by lia; lia.
Qed.

(** [fuzzy_score] bounds: as long as ten times the query length fits in a
    [u16] (so the score cannot wrap around), a matched query of [n]
    characters scores between [n] and [10 n]: every matched character earns
    1, 5 or 10 points. *)
Theorem fuzzy_score_bounds (h q : list char) (s : N) :
  10 * N.of_nat (length q) < 65536 ->
  fuzzy_score h q = Some s ->
  N.of_nat (length q) <= s <= 10 * N.of_nat (length q).
Proof.
  intros Hq. unfold fuzzy_score. destruct q as [|a q']; [intros [= <-]; cbn; lia|].
  pose proof (scan_haystack_bounds (a :: q') h init_scan Hq) as Hb.
  cbn [needle_idx score init_scan] in Hb. specialize (Hb ltac:(lia) ltac:(lia)).
  cbv zeta in *. destruct (Nat.eqb_spec (needle_idx (scan_haystack (a :: q') init_scan h))
                     (length (a :: q'))) as [E|]; [|done].
  intros [= <-]. rewrite E in Hb. lia.
Qed.

Lemma fuzzy_score_bounds_witness :
  10 * N.of_nat (length (chars "mrs")) < 65536 /\
  fuzzy_score (chars "main.rs") (chars "mrs") = Some 25 /\
  N.of_nat (length (chars "mrs")) <= 25 <= 10 * N.of_nat (length (chars "mrs")).
Proof.
  split; [cbn; lia|]. split; [reflexivity|].
  apply (fuzzy_score_bounds (chars "main.rs") (chars "mrs") 25); [cbn; lia|reflexivity].
Defined.

Lemma filter_take_prefix {A} (P : A -> Prop) `{!forall x, Decision (P x)} n (l : list A) :
  filter P (take n l) `prefix_of` filter P l.
Proof.
  revert n. induction l as [|x l IH]; intros [|n]; try apply prefix_nil.
  change (take (S n) (x :: l)) with (x :: take n l).
  rewrite !filter_cons. case_decide; [by apply prefix_cons|apply IH].
Qed.

(** The search results: at most 50, in non-increasing score order, and
    among the candidates of equal score, in the order of the path
    snapshot ([sort_by] is stable, [truncate] keeps a prefix). *)
Theorem search_matches_ranked lossy lower (query : list char) (cache : list path) :
  let ms := update_search_matches lossy lower query cache in
  (length ms <= 50)%nat /\
  StronglySorted (fun x y => y.2 <= x.2) ms /\
  forall k, filter (fun m => m.2 = k) ms `prefix_of`
            filter (fun m => m.2 = k) (score_candidates lossy lower (lower query) cache).
Proof.
  cbv zeta. unfold update_search_matches. destruct query as [|a q].
  { split; [cbn; lia|]. split; [constructor|]. intros k. apply prefix_nil. }
  set (cmp := fun x y : path * N => N.compare y.2 x.2).
  assert (Ha : forall x y, cmp x y = CompOpp (cmp y x)).
  { intros x y. unfold cmp. apply N.compare_antisym. }
  assert (Ht : forall x y z, cmp x y <> Gt -> cmp y z <> Gt -> cmp x z <> Gt).
  { intros x y z. unfold cmp. rewrite !N.compare_le_iff. lia. }
  split; [rewrite length_take; lia|]. split.
  - eapply strongly_sorted_impl; [|eapply sublist_strongly_sorted;
      [apply sublist_take|apply (sort_by_sorted cmp Ha Ht)]].
    intros x y. unfold le_by, cmp. rewrite N.compare_le_iff. lia.
  - intros k. etransitivity; [apply filter_take_prefix|].
    rewrite (sort_by_stable cmp snd); [done|].
    intros x y Hxy. unfold cmp. rewrite Hxy. apply N.compare_refl.
Qed.

End FuzzyFacts.

(** ** Persistent state *)
Module StateFacts.
Import State StateProofs.

Lemma sublist_map {A B} (f : A -> B) (l1 l2 : list A) :
  l1 `sublist_of` l2 -> map f l1 `sublist_of` map f l2.
Proof. induction 1; cbn; by constructor. Qed.

Lemma filter_all {A} (P : A -> Prop) `{!forall x, Decision (P x)} (l : list A) :
  (forall x, x ∈ l -> P x) -> filter P l = l.
Proof.
  induction l as [|x l IH]; intros Hl; [done|].
  rewrite filter_cons_True by (apply Hl; constructor).
  f_equal. apply IH. intros y Hy. apply Hl. by constructor.
Qed.

(** [get_bookmark] after [add_bookmark] finds the new bookmark. *)
Theorem get_bookmark_add_bookmark (st : PersistentState) (p : path) (lbl : string)
    (now : option N) :
  get_bookmark (add_bookmark st p lbl now) p = Some (mkBookmark p lbl (epoch_secs now)).
Proof.
  unfold get_bookmark, add_bookmark. cbn [bookmarks].
  induction (bookmarks st) as [|b bs IH].
  - cbn. by rewrite bool_decide_true.
  - rewrite filter_cons. case_decide as Hb; [|exact IH].
    cbn [app find]. rewrite bool_decide_false by done. exact IH.
Qed.

(** [add_bookmark] keeps the bookmarked paths free of duplicates. *)
Theorem add_bookmark_nodup (st : PersistentState) (p : path) (lbl : string)
    (now : option N) :
  NoDup (map bm_path (bookmarks st)) ->
  NoDup (map bm_path (bookmarks (add_bookmark st p lbl now))).
Proof.
  intros Hnd. cbn [add_bookmark bookmarks]. rewrite map_app. cbn.
  apply NoDup_app. split; [|split].
  - eapply sublist_NoDup; [exact Hnd|]. apply sublist_map, sublist_filter.
  - intros x Hx ->%list_elem_of_singleton.
    apply list_elem_of_fmap in Hx as (b & Hb & Hbin).
    apply list_elem_of_filter in Hbin as [Hne _]. by apply Hne.
  - apply NoDup_singleton.
Qed.

Lemma add_bookmark_nodup_witness :
  NoDup (map bm_path [mkBookmark ["a"] "" 0; mkBookmark ["b"] "" 0]) /\
  NoDup (map bm_path (bookmarks (add_bookmark
    (mkPersistentState ∅ ∅ false [mkBookmark ["a"] "" 0; mkBookmark ["b"] "" 0] [])
    ["a"] "x" None))).
Proof.
  assert (H : NoDup (map bm_path [mkBookmark ["a"] "" 0; mkBookmark ["b"] "" 0])).
  { cbn. repeat constructor; set_solver. }
  split; [exact H|]. by apply add_bookmark_nodup.
Defined.

Lemma add_recent_recent (st : PersistentState) (p : path) :
  recent_dirs (add_recent st p) = p :: take 49 (filter (fun q => q <> p) (recent_dirs st)).
Proof. unfold add_recent. cbv zeta. cbn [recent_dirs]. by rewrite pop_back_while_take by lia. Qed.

Lemma filter_ne_take (p : path) n (l : list path) :
  filter (fun q => q <> p) (take n (filter (fun q => q <> p) l)) =
  take n (filter (fun q => q <> p) l).
Proof.
  apply filter_all. intros x Hx.
  apply elem_of_take in Hx as (i & Hi & _).
  apply list_elem_of_lookup_2 in Hi. by apply list_elem_of_filter in Hi as [? _].
Qed.

(** Visiting the same directory twice in a row records it once:
    [add_recent] is idempotent. *)
Theorem add_recent_idempotent (st : PersistentState) (p : path) :
  add_recent (add_recent st p) p = add_recent st p.
Proof.
  assert (Hr : recent_dirs (add_recent (add_recent st p) p) = recent_dirs (add_recent st p)).
  { rewrite !add_recent_recent. f_equal.
    rewrite filter_cons_False by tauto. rewrite filter_ne_take.
    rewrite take_take. f_equal. }
  destruct st as [E S h bs r]. unfold add_recent in *. cbn in *. rewrite Hr. done.
Qed.

(** [add_recent] keeps the recent list free of duplicates. *)
Theorem add_recent_nodup (st : PersistentState) (p : path) :
  NoDup (recent_dirs st) -> NoDup (recent_dirs (add_recent st p)).
Proof.
  intros Hnd. rewrite add_recent_recent. apply NoDup_cons. split.
  - intros Hin. apply elem_of_take in Hin as (i & Hi & _).
    apply list_elem_of_lookup_2 in Hi. by apply list_elem_of_filter in Hi as [? _].
  - eapply sublist_NoDup; [|apply sublist_take].
    eapply sublist_NoDup; [exact Hnd|apply sublist_filter].
Qed.

Lemma add_recent_nodup_witness :
  NoDup [["a"]; ["b"]] /\
  NoDup (recent_dirs (add_recent (mkPersistentState ∅ ∅ false [] [["a"]; ["b"]]) ["b"])).
Proof.
  assert (H : NoDup [["a"]; ["b"]]) by (repeat constructor; set_solver).
  split; [exact H|]. by apply (add_recent_nodup (mkPersistentState ∅ ∅ false [] [["a"]; ["b"]])).
Defined.

End StateFacts.

(** ** The size worker *)
Module SizeFacts.
Import Tree App.

Lemma foldl_insert_lookup (rs : list (path * N)) (m : SizeCache) q :
  foldl (fun m r => <[ r.1 := Some r.2 ]> m) m rs !! q =
  match last (filter (fun r => r.1 = q) rs) with
  | Some r => Some (Some r.2)
  | None => m !! q
  end.
Proof.
  induction rs as [|r rs IH] using rev_ind; [done|].
  rewrite foldl_app, filter_app, filter_cons, filter_nil. cbn [foldl].
  case_decide as Hr.
  - rewrite last_snoc. subst q. by rewrite lookup_insert_eq.
  - rewrite app_nil_r. rewrite lookup_insert_ne by done. exact IH.
Qed.

(** [poll_results] empties the result queue into the cache: every path
    with results gets [Some] of its last computed size, every other entry
    is unchanged, and the request queue is untouched. *)
Theorem poll_results_lookup (w : SizeWorker) (m : SizeCache) (q : path) :
  (poll_results w m).1 = mkSizeWorker (request_q w) [] /\
  (poll_results w m).2 !! q =
    match last (filter (fun r => r.1 = q) (result_q w)) with
    | Some r => Some (Some r.2)
    | None => m !! q
    end.
Proof. split; [done|]. apply foldl_insert_lookup. Qed.


End SizeFacts.

(** ** Built forests *)
Module TreeFacts.
Import Tree TreeObs SortProofs TreeProofs.

(** [build_tree_item] at fuel [S f] on [p] has enough fuel: every expanded
    directory is shorter than [f + length p]. *)
Definition fuel_ok (E : gset path) (f : nat) (p : path) : Prop :=
  forall q, q ∈ E -> (length q < f + length p)%nat.

Lemma fuel_ok_child E f p n : fuel_ok E (S f) p -> fuel_ok E f (p ++ [n]).
Proof. intros H q Hq. specialize (H q Hq). rewrite length_app. cbn. lia. Qed.

Lemma fuel_ok_top E root n : fuel_ok E (foldr Nat.max 0%nat (map length (elements E))) (root ++ [n]).
Proof.
  intros q Hq. apply elem_of_elements in Hq. rewrite length_app. cbn.
  assert (forall l, q ∈ l -> (length q <= foldr Nat.max 0%nat (map length l))%nat) as H.
  { induction l as [|r l IH]; intros Hl; [by apply elem_of_nil in Hl|].
    apply elem_of_cons in Hl as [->|Hl]; cbn; [lia|]. specialize (IH Hl). lia. }
  specialize (H _ Hq). lia.
Qed.

Lemma in_listing fs d q : In q (listing fs d) -> exists n, q = d ++ [n].
Proof.
  unfold listing. destruct (read_dir fs d); [|done].
  intros (n & <- & _)%in_map_iff. by exists n.
Qed.

Lemma load_children_src bi fs h d ch :
  load_children_with bi fs h d = Ok ch ->
  forall c, In c ch -> exists q,
    In q (List.filter (fun p => h || negb (is_hidden p)) (listing fs d)) /\ bi q = Ok c.
Proof.
  unfold load_children_with, listing. destruct (read_dir fs d) as [es|]; [|done].
  intros [= <-] c Hc. apply list_elem_of_In, list_elem_of_omap in Hc as (q & Hq & Hg).
  exists q. split.
  - apply list_elem_of_In in Hq. by apply in_sort_by in Hq.
  - destruct (bi q); congruence.
Qed.

Lemma bti_step fs E St h sizes f p it :
  build_tree_item (S f) fs E St h sizes p = Ok it ->
  let name := format_entry_name fs p (bool_decide (p ∈ E)) (bool_decide (p ∈ St)) sizes in
  item_id it = p /\
  ((is_dir fs p && bool_decide (p ∈ E) = false /\ it = new_leaf p name) \/
   (is_dir fs p && bool_decide (p ∈ E) = true /\ exists e,
      load_children_with (build_tree_item f fs E St h sizes) fs h p = Err e /\
      it = new_leaf p (name ++ [PText " ["; PText (format_error e); PText "]"])) \/
   (is_dir fs p && bool_decide (p ∈ E) = true /\
      load_children_with (build_tree_item f fs E St h sizes) fs h p = Ok (item_children it))).
Proof.
  intros Hb. split; [exact (build_tree_item_id _ _ _ _ _ _ _ _ Hb)|]. revert Hb.
  cbn [build_tree_item]. destruct (is_dir fs p && bool_decide (p ∈ E)) eqn:C.
  - destruct (load_children_with _ _ _ _) as [ch|e] eqn:L.
    + unfold tree_item_new. destruct (bool_decide (NoDup (map item_id ch))); cbv beta iota; [|intros [=]]. intros [= <-]. right; right. by split.
    + intros [= <-]. right; left. split; [done|]. by exists e.
  - intros [= <-]. left. by split.
Qed.

Lemma item_nodes_cases it x : In x (item_nodes it) ->
  x = it \/ exists c, In c (item_children it) /\ In x (item_nodes c).
Proof.
  destruct it as [i t ch]. cbn. intros [<-|Hx]; [by left|right].
  by apply in_flat_map in Hx.
Qed.

Lemma nodes_built fs E St h sizes f :
  forall p it, fuel_ok E f p ->
  build_tree_item (S f) fs E St h sizes p = Ok it ->
  forall x, In x (item_nodes it) ->
  exists f', fuel_ok E f' (item_id x) /\ build_tree_item (S f') fs E St h sizes (item_id x) = Ok x.
Proof.
  induction f as [|f IH]; intros p it Hf Hb x Hx;
    (destruct (item_nodes_cases it x Hx) as [->|(c & Hc & Hxc)];
     [eexists; rewrite (build_tree_item_id _ _ _ _ _ _ _ _ Hb); split; [exact Hf|exact Hb]|]);
    destruct (bti_step _ _ _ _ _ _ _ _ Hb) as [Hid Hcase]; cbv zeta in Hcase;
    (destruct Hcase as [[_ Hit]|[[_ (e & _ & Hit)]|[_ Hl]]]; [by rewrite Hit in Hc|by rewrite Hit in Hc|]);
    destruct (load_children_src _ _ _ _ _ Hl c Hc) as (q & Hq & Hbq).
  - done.
  - apply List.filter_In in Hq as [Hq _]. destruct (in_listing _ _ _ Hq) as [n ->].
    apply (IH (p ++ [n]) c); [apply fuel_ok_child, Hf|exact Hbq|exact Hxc].
Qed.

Lemma forest_nodes_built fs root E St h sizes forest :
  build_tree fs root E St h sizes = Ok forest ->
  forall x, In x (forest_nodes forest) ->
  exists f, fuel_ok E f (item_id x) /\ build_tree_item (S f) fs E St h sizes (item_id x) = Ok x.
Proof.
  unfold build_tree, build_fuel. intros Hb x Hx.
  apply in_flat_map in Hx as (c & Hc & Hx).
  destruct (load_children_src _ _ _ _ _ Hb c Hc) as (q & Hq & Hbq).
  apply List.filter_In in Hq as [Hq _]. destruct (in_listing _ _ _ Hq) as [n ->].
  exact (nodes_built _ _ _ _ _ _ _ _ (fuel_ok_top E root n) Hbq x Hx).
Qed.

(** The builder fails only when the root itself cannot be listed: every
    error below the root is absorbed into the forest. *)
Theorem build_tree_fails_only_at_root fs root E St h sizes e :
  build_tree fs root E St h sizes = Err e <-> read_dir fs root = Err e.
Proof.
  unfold build_tree, load_children_with.
  destruct (read_dir fs root); split; congruence.
Qed.

Lemma children_listed fs root E St h sizes forest :
  build_tree fs root E St h sizes = Ok forest ->
  (forall c, In c forest ->
     In (item_id c) (listing fs root) /\ (h || negb (is_hidden (item_id c))) = true) /\
  (forall x c, In x (forest_nodes forest) -> In c (item_children x) ->
     In (item_id c) (listing fs (item_id x)) /\ (h || negb (is_hidden (item_id c))) = true).
Proof.
  intros Hb. split.
  - intros c Hc. unfold build_tree in Hb.
    destruct (load_children_src _ _ _ _ _ Hb c Hc) as (q & Hq & Hbq).
    rewrite (build_tree_item_id _ _ _ _ _ _ _ _ Hbq). by apply List.filter_In in Hq.
  - intros x c Hx Hc. destruct (forest_nodes_built _ _ _ _ _ _ _ Hb x Hx) as (f & _ & Hbx).
    destruct (bti_step _ _ _ _ _ _ _ _ Hbx) as [_ Hcase]; cbv zeta in Hcase.
    destruct Hcase as [[_ Hit]|[[_ (e & _ & Hit)]|[_ Hl]]];
      [rewrite Hit in Hc; done|rewrite Hit in Hc; done|].
    destruct (load_children_src _ _ _ _ _ Hl c Hc) as (q & Hq & Hbq).
    rewrite (build_tree_item_id _ _ _ _ _ _ _ _ Hbq). by apply List.filter_In in Hq.
Qed.

(** Every item of a built forest is an entry of its parent's listing (the
    root's for the top level), and with [show_hidden] off no item is a
    hidden (dot) entry. *)
Theorem build_tree_children_listed fs root E St h sizes forest :
  build_tree fs root E St h sizes = Ok forest ->
  (forall c, In c forest ->
     In (item_id c) (listing fs root) /\ (h || negb (is_hidden (item_id c))) = true) /\
  (forall x c, In x (forest_nodes forest) -> In c (item_children x) ->
     In (item_id c) (listing fs (item_id x)) /\ (h || negb (is_hidden (item_id c))) = true).
Proof. apply children_listed. Qed.

Lemma build_tree_children_listed_witness :
  build_tree Fixtures.sample_fs [] {[ ["src"] ]} ∅ false None = Ok Fixtures.sample_forest /\
  (forall x c, In x (forest_nodes Fixtures.sample_forest) -> In c (item_children x) ->
     In (item_id c) (listing Fixtures.sample_fs (item_id x)) /\
     (false || negb (is_hidden (item_id c))) = true).
Proof.
  assert (Hb : build_tree Fixtures.sample_fs [] {[ ["src"] ]} ∅ false None =
               Ok Fixtures.sample_forest) by (vm_compute; reflexivity).
  split; [exact Hb|]. exact (proj2 (build_tree_children_listed _ _ _ _ _ _ _ Hb)).
Defined.

Lemma children_only_expanded fs root E St h sizes forest :
  build_tree fs root E St h sizes = Ok forest ->
  forall x, In x (forest_nodes forest) -> item_children x <> [] ->
  is_dir fs (item_id x) = true /\ item_id x ∈ E.
Proof.
  intros Hb x Hx Hne. destruct (forest_nodes_built _ _ _ _ _ _ _ Hb x Hx) as (f & _ & Hbx).
  destruct (bti_step _ _ _ _ _ _ _ _ Hbx) as [_ Hcase]; cbv zeta in Hcase.
  destruct Hcase as [[_ Hit]|[[C _]|[C _]]]; [by rewrite Hit in Hne| |];
    apply andb_prop in C as [C1 C2]; by apply bool_decide_eq_true in C2.
Qed.

(** Only expanded directories have children in a built forest. *)
Theorem build_tree_children_only_expanded fs root E St h sizes forest :
  build_tree fs root E St h sizes = Ok forest ->
  forall x, In x (forest_nodes forest) -> item_children x <> [] ->
  is_dir fs (item_id x) = true /\ item_id x ∈ E.
Proof. apply children_only_expanded. Qed.

Lemma build_tree_children_only_expanded_witness :
  build_tree Fixtures.sample_fs [] {[ ["src"] ]} ∅ false None = Ok Fixtures.sample_forest /\
  (forall x, In x (forest_nodes Fixtures.sample_forest) -> item_children x <> [] ->
     is_dir Fixtures.sample_fs (item_id x) = true /\ item_id x ∈ ({[ ["src"] ]} : gset path)).
Proof.
  assert (Hb : build_tree Fixtures.sample_fs [] {[ ["src"] ]} ∅ false None =
               Ok Fixtures.sample_forest) by (vm_compute; reflexivity).
  split; [exact Hb|]. exact (build_tree_children_only_expanded _ _ _ _ _ _ _ Hb).
Defined.

(** An unreadable directory below the root never makes the build fail:
    the builder fails exactly when the root itself cannot be listed, with
    that error.  An expanded directory that cannot be listed appears as a
    leaf whose label carries the error: " [Permission denied]",
    " [Not found]" or " [Error]". *)
Theorem build_tree_unreadable_dir fs root E St h sizes :
  (forall e, build_tree fs root E St h sizes = Err e <-> read_dir fs root = Err e) /\
  (forall forest x e,
     build_tree fs root E St h sizes = Ok forest -> In x (forest_nodes forest) ->
     is_dir fs (item_id x) = true -> item_id x ∈ E -> read_dir fs (item_id x) = Err e ->
     item_children x = [] /\
     item_text x = format_entry_name fs (item_id x) true (bool_decide (item_id x ∈ St)) sizes
                   ++ [PText " ["; PText (format_error e); PText "]"]).
Proof.
  split.
  - intros e. unfold build_tree, load_children_with.
    destruct (read_dir fs root); split; congruence.
  - intros forest x e Hb Hx Hd He Hr.
    destruct (forest_nodes_built _ _ _ _ _ _ _ Hb x Hx) as (f & _ & Hbx).
    destruct (bti_step _ _ _ _ _ _ _ _ Hbx) as [Hid Hcase]; cbv zeta in Hcase.
    rewrite bool_decide_true in Hcase by done. rewrite Hd in Hcase. cbn in Hcase.
    unfold load_children_with in Hcase. rewrite Hr in Hcase.
    destruct Hcase as [[? _]|[[_ (e' & [= <-] & Hit)]|[_ ?]]]; [done| |done].
    rewrite Hit. by split.
Qed.

Lemma build_tree_unreadable_dir_witness :
  let forest := match build_tree Fixtures.sample_fs_locked [] {[ ["src"] ]} ∅ false None with
                | Ok f => f | Err _ => [] end in
  let x := Node ["src"] (format_entry_name Fixtures.sample_fs_locked ["src"] true false None
                          ++ [PText " ["; PText "Permission denied"; PText "]"]) [] in
  read_dir Fixtures.sample_fs_locked ["src"] = Err PermissionDenied /\
  build_tree Fixtures.sample_fs_locked [] {[ ["src"] ]} ∅ false None = Ok forest /\
  In x (forest_nodes forest) /\
  item_children x = [] /\
  item_text x = format_entry_name Fixtures.sample_fs_locked ["src"] true
                  (bool_decide (["src"] ∈ (∅ : gset path))) None
                ++ [PText " ["; PText (format_error PermissionDenied); PText "]"].
Proof.
  intros forest x.
  assert (Hb : build_tree Fixtures.sample_fs_locked [] {[ ["src"] ]} ∅ false None = Ok forest)
    by (vm_compute; reflexivity).
  assert (Hx : In x (forest_nodes forest)) by (vm_compute; tauto).
  split; [reflexivity|]. split; [exact Hb|]. split; [exact Hx|].
  exact (proj2 (build_tree_unreadable_dir Fixtures.sample_fs_locked [] {[ ["src"] ]} ∅ false None)
           forest x PermissionDenied Hb Hx eq_refl ltac:(set_solver) eq_refl).
Defined.

(** *** Completeness *)

Lemma insert_by_perm {A} cmp (x : A) l : Permutation (insert_by cmp x l) (x :: l).
Proof.
  induction l as [|y l IH]; cbn; [done|].
  destruct (cmp x y); try done.
  etransitivity; [apply perm_skip, IH|apply perm_swap].
Qed.

Lemma sort_by_perm {A} cmp (l : list A) : Permutation (sort_by cmp l) l.
Proof.
  induction l as [|x l IH]; cbn; [done|].
  etransitivity; [apply insert_by_perm|by apply perm_skip].
Qed.

Lemma nodup_map_join d (l : list string) : NoDup l -> NoDup (map (join d) l).
Proof.
  induction 1 as [|n l Hn Hl IH]; cbn; constructor; [|exact IH].
  intros (m & Hm & Hin)%list_elem_of_In%in_map_iff. apply app_inv_head in Hm. injection Hm as ->.
  apply Hn, list_elem_of_In, Hin.
Qed.

Lemma shown_entries_nodup fs h d : listings_nodup fs -> NoDup (shown_entries fs h d).
Proof.
  intros Hnd. unfold shown_entries, sort_entries, listing.
  rewrite sort_by_perm.
  destruct (read_dir fs d) as [es|] eqn:Hr; [|constructor].
  eapply sublist_NoDup; [|apply list_filter_sublist].
  apply nodup_map_join, (Hnd d es Hr).
Qed.

Lemma omap_all {A B} (g : A -> option B) (k : B -> A) l :
  (forall x, In x l -> exists y, g x = Some y /\ k y = x) -> map k (omap g l) = l.
Proof.
  induction l as [|x l IH]; intros H; [done|]. rewrite omap_cons_eq.
  destruct (H x (or_introl eq_refl)) as (y & -> & Hy). cbn. rewrite Hy. f_equal.
  apply IH. intros; apply H; by right.
Qed.

Lemma load_children_all bi fs h d ch :
  (forall q it, bi q = Ok it -> item_id it = q) ->
  (forall q, In q (List.filter (fun p => h || negb (is_hidden p)) (listing fs d)) ->
     exists it, bi q = Ok it) ->
  load_children_with bi fs h d = Ok ch -> map item_id ch = shown_entries fs h d.
Proof.
  intros Hid Htot. unfold load_children_with, shown_entries.
  unfold listing in Htot |- *. destruct (read_dir fs d) as [es|]; [|done].
  intros [= <-]. apply omap_all. intros q Hq. apply in_sort_by in Hq.
  destruct (Htot q Hq) as [it Hit]. exists it. rewrite Hit. split; [done|]. eauto.
Qed.

Lemma bti_unfold f fs E St h sizes p :
  build_tree_item (S f) fs E St h sizes p =
  if is_dir fs p && bool_decide (p ∈ E) then
    match load_children_with (build_tree_item f fs E St h sizes) fs h p with
    | Ok children =>
        match tree_item_new p (format_entry_name fs p (bool_decide (p ∈ E))
                                 (bool_decide (p ∈ St)) sizes) children with
        | Ok it => Ok it
        | Err _ => Err Other
        end
    | Err e => Ok (new_leaf p (format_entry_name fs p (bool_decide (p ∈ E))
                                 (bool_decide (p ∈ St)) sizes
                               ++ [PText " ["; PText (format_error e); PText "]"]))
    end
  else Ok (new_leaf p (format_entry_name fs p (bool_decide (p ∈ E))
                         (bool_decide (p ∈ St)) sizes)).
Proof. reflexivity. Qed.

Lemma bti_total fs E St h sizes : listings_nodup fs ->
  forall f p, fuel_ok E f p -> exists it, build_tree_item (S f) fs E St h sizes p = Ok it.
Proof.
  intros Hnd. induction f as [|f IH]; intros p Hf; rewrite bti_unfold;
    destruct (is_dir fs p && bool_decide (p ∈ E)) eqn:C; eauto.
  - apply andb_prop in C as [_ C]. apply bool_decide_eq_true in C.
    specialize (Hf p C). lia.
  - destruct (load_children_with _ _ _ _) as [ch|e] eqn:L; [|eauto].
    assert (Hids : map item_id ch = shown_entries fs h p).
    { refine (load_children_all _ _ _ _ _ (build_tree_item_id _ _ _ _ _ _) _ L).
      intros q Hq. apply List.filter_In in Hq as [Hq _].
      destruct (in_listing _ _ _ Hq) as [n ->]. apply IH, fuel_ok_child, Hf. }
    unfold tree_item_new. rewrite bool_decide_true; [eauto|].
    rewrite Hids. by apply shown_entries_nodup.
Qed.

(** When no listing names an entry twice, the forest is complete: the top
    level holds exactly the root's shown entries (hidden ones only with
    [show_hidden]) in [sort_entries] order, every expanded directory
    holds exactly its own shown entries, and every other item is a leaf.
    No entry is silently dropped. *)
Theorem build_tree_complete fs root E St h sizes forest :
  listings_nodup fs ->
  build_tree fs root E St h sizes = Ok forest ->
  map item_id forest = shown_entries fs h root /\
  forall x, In x (forest_nodes forest) ->
    map item_id (item_children x) =
      if is_dir fs (item_id x) && bool_decide (item_id x ∈ E)
      then shown_entries fs h (item_id x) else [].
Proof.
  intros Hnd Hb. split.
  - unfold build_tree, build_fuel in Hb.
    refine (load_children_all _ _ _ _ _ (build_tree_item_id _ _ _ _ _ _) _ Hb).
    intros q Hq. apply List.filter_In in Hq as [Hq _].
    destruct (in_listing _ _ _ Hq) as [n ->]. apply (bti_total _ _ _ _ _ Hnd), fuel_ok_top.
  - intros x Hx. destruct (forest_nodes_built _ _ _ _ _ _ _ Hb x Hx) as (f & Hf & Hbx).
    destruct (bti_step _ _ _ _ _ _ _ _ Hbx) as [Hid Hcase]; cbv zeta in Hcase.
    destruct Hcase as [[C Hit]|[[C (e & Hl & Hit)]|[C Hl]]]; rewrite C;
      [by rewrite Hit| |].
    + rewrite Hit at 1. cbn [item_children new_leaf map]. unfold load_children_with in Hl. unfold shown_entries, listing.
      destruct (read_dir fs (item_id x)); [done|]. reflexivity.
    + destruct f as [|f].
      { apply andb_prop in C as [_ C]. apply bool_decide_eq_true in C.
        specialize (Hf _ C). lia. }
      refine (load_children_all _ _ _ _ _ (build_tree_item_id _ _ _ _ _ _) _ Hl).
      intros q Hq. apply List.filter_In in Hq as [Hq _].
      destruct (in_listing _ _ _ Hq) as [n ->].
      apply (bti_total _ _ _ _ _ Hnd), fuel_ok_child, Hf.
Qed.

Lemma build_tree_complete_witness :
  listings_nodup Fixtures.sample_fs /\
  build_tree Fixtures.sample_fs [] {[ ["src"] ]} ∅ false None = Ok Fixtures.sample_forest /\
  map item_id Fixtures.sample_forest = shown_entries Fixtures.sample_fs false [].
Proof.
  assert (Hnd : listings_nodup Fixtures.sample_fs).
  { intros d es. unfold Fixtures.sample_fs. cbn [read_dir].
    repeat case_bool_decide; intros [= <-]; vm_compute; repeat constructor; set_solver. }
  assert (Hb : build_tree Fixtures.sample_fs [] {[ ["src"] ]} ∅ false None =
               Ok Fixtures.sample_forest) by (vm_compute; reflexivity).
  split; [exact Hnd|]. split; [exact Hb|].
  exact (proj1 (build_tree_complete _ _ _ _ _ _ _ Hnd Hb)).
Defined.

End TreeFacts.

(** ** Search mode *)
Module SearchFacts.
Import State Tree App AppMore FuzzyProofs TreeObs TreeFacts.

(** The index addresses a match whenever there are matches. *)
Definition search_ok (a : App) : Prop :=
  search_matches a = [] \/ (search_index a < length (search_matches a))%nat.

Lemma select_search_match_ok a :
  search_ok a ->
  exists a', select_search_match a = Some a' /\ search_ok a' /\
    search_paths_cache a' = search_paths_cache a /\ search_matches a' = search_matches a /\
    saved_view_items a' = saved_view_items a /\ saved_selection a' = saved_selection a /\
    persistent_state a' = persistent_state a.
Proof.
  intros Hok. unfold select_search_match.
  destruct (search_matches a) as [|m ms] eqn:Hm; [exists a; rewrite Hm; by split|].
  destruct Hok as [Hok|Hok]; [congruence|]. rewrite Hm in Hok.
  destruct (nth_error (m :: ms) (search_index a)) as [[p s]|] eqn:Hn.
  - eexists; split; [reflexivity|]. unfold search_ok. destruct a; cbn in *. subst. by split; [right|].
  - apply nth_error_None in Hn. lia.
Qed.

Lemma exit_search_mode_cleared a :
  search_matches (exit_search_mode a) = [] /\ search_paths_cache (exit_search_mode a) = [].
Proof.
  unfold exit_search_mode. destruct a; cbn.
  destruct saved_view_items0; cbn; by split.
Qed.

Lemma jump_ok fs a a' :
  jump_to_search_result fs a = Some a' ->
  search_ok a' /\ search_matches a' = [] /\ search_paths_cache a' = [].
Proof.
  unfold jump_to_search_result. destruct (search_matches a) eqn:Hm.
  - intros [= <-]. pose proof (exit_search_mode_cleared a) as [H Hc].
    split; [by left|by split].
  - destruct (nth_error _ _) as [[q sc]|]; [|done]. intros [= <-].
    unfold search_ok. cbn. by split; [left|].
Qed.

Lemma jump_some fs a : search_ok a -> jump_to_search_result fs a <> None.
Proof.
  intros [Hm|Hi]; unfold jump_to_search_result; [by rewrite Hm|].
  destruct (search_matches a) as [|m ms]; [done|].
  destruct (nth_error (m :: ms) (search_index a)) as [[p s]|] eqn:Hn; [done|].
  apply nth_error_None in Hn. lia.
Qed.

Lemma update_search_matches_ok lossy lower fs q a :
  search_ok (update_search_matches lossy lower fs q a).
Proof.
  unfold update_search_matches, search_ok. destruct q as [|c q].
  - destruct a; cbn. destruct saved_view_items0; cbn; by left.
  - destruct a; cbn. match goal with |- ?l = [] \/ _ => destruct l; cbn; [by left|right; lia] end.
Qed.

Lemma handle_search_key_ok lossy lower fs a k :
  search_ok a -> exists a', handle_search_key lossy lower fs a k = Some a' /\ search_ok a'.
Proof.
  intros Hok. destruct k as [| | | |q]; cbn [handle_search_key].
  - eexists; split; [reflexivity|]. left. apply exit_search_mode_cleared.
  - destruct (jump_to_search_result fs a) as [a'|] eqn:Hj; [|by apply jump_some in Hj].
    eexists; split; [reflexivity|]. exact (proj1 (jump_ok _ _ _ Hj)).
  - destruct (search_matches a) as [|m ms] eqn:Hm; [by exists a|].
    edestruct (select_search_match_ok (set_search_index a ((search_index a + 1) mod length (m :: ms))))
      as (a' & Hs & Ha' & _); [|by exists a'].
    right. unfold set_search_index; cbn [search_index search_matches]. rewrite Hm.
    apply Nat.mod_upper_bound. cbn [length]. lia.
  - destruct (search_matches a) as [|m ms] eqn:Hm; [by exists a|].
    destruct Hok as [Hok|Hok]; [congruence|]. rewrite Hm in Hok.
    edestruct (select_search_match_ok (set_search_index a (match search_index a with
                 | O => length (m :: ms) - 1 | S i => i end))) as (a' & Hs & Ha' & _); [|by exists a'].
    right. unfold set_search_index; cbn [search_index search_matches]. rewrite Hm.
    cbn [length] in *. destruct (search_index a); lia.
  - edestruct (select_search_match_ok (update_search_matches lossy lower fs q a))
      as (a' & Hs & Ha' & _); [apply update_search_matches_ok|by exists a'].
Qed.

Lemma enter_search_mode_ok a : search_ok (enter_search_mode a).
Proof. unfold enter_search_mode, search_ok. destruct a; cbn. by left. Qed.

(** Search mode never indexes past the match list: from entering it, any
    sequence of keys ([Esc], [Enter], [Down]/[Tab], [Up]/[BackTab] and
    edits of the query) is handled without a panic. *)
Theorem search_keys_never_panic lossy lower fs a ks :
  run_search_keys lossy lower fs (enter_search_mode a) ks <> None.
Proof.
  generalize (enter_search_mode_ok a). generalize (enter_search_mode a) as b.
  induction ks as [|k ks IH]; intros b Hb; cbn; [done|].
  destruct (handle_search_key_ok lossy lower fs b k Hb) as (b' & -> & Hb').
  exact (IH b' Hb').
Qed.

(** *** Escape restores the tree *)

Definition nav_key (k : SearchKey) : bool :=
  match k with SDown | SUp | SEdit _ => true | SEsc | SEnter => false end.

(** The fields a search key other than [Esc] and [Enter] leaves alone. *)
Definition search_frame (a b : App) : Prop :=
  saved_view_items b = saved_view_items a /\ saved_selection b = saved_selection a /\
  persistent_state b = persistent_state a /\ search_paths_cache b = search_paths_cache a.

Lemma select_search_match_frame a a' :
  select_search_match a = Some a' -> search_frame a a'.
Proof.
  unfold select_search_match. repeat case_match; intros; simplify_eq; [done|].
  by destruct a.
Qed.

Lemma nav_key_frame lossy lower fs a k a' :
  nav_key k = true -> handle_search_key lossy lower fs a k = Some a' -> search_frame a a'.
Proof.
  destruct k as [| | | |q]; cbn; try done; intros _.
  - destruct (search_matches a); [by intros [= <-]|].
    intros Hs%select_search_match_frame. destruct a; exact Hs.
  - destruct (search_matches a); [by intros [= <-]|].
    intros Hs%select_search_match_frame. destruct a; exact Hs.
  - intros Hs%select_search_match_frame. destruct Hs as (H1 & H2 & H3 & H4).
    unfold update_search_matches in *. destruct a; destruct q; cbn in *;
      [destruct saved_view_items0; cbn in *|]; by repeat split.
Qed.

Lemma run_nav_keys_frame lossy lower fs a ks a' :
  forallb nav_key ks = true -> run_search_keys lossy lower fs a ks = Some a' -> search_frame a a'.
Proof.
  revert a. induction ks as [|k ks IH]; intros a Hk; cbn in *.
  - intros [= <-]. done.
  - apply andb_prop in Hk as [Hk Hks].
    destruct (handle_search_key lossy lower fs a k) as [a1|] eqn:Hh; [|done].
    intros Hr. destruct (nav_key_frame _ _ _ _ _ _ Hk Hh) as (A1 & A2 & A3 & A4).
    destruct (IH a1 Hks Hr) as (B1 & B2 & B3 & B4). repeat split; congruence.
Qed.

(** [Esc] after any edits of the query and moves through the matches
    gives back the items and the selected row from before the search, and
    the persistent state is untouched; the tree state is a fresh one,
    though, so no node stays opened in the widget. *)
Theorem search_escape_restores lossy lower fs a ks a' :
  forallb nav_key ks = true ->
  run_search_keys lossy lower fs (enter_search_mode a) ks = Some a' ->
  handle_search_key lossy lower fs a' SEsc = Some (exit_search_mode a') /\
  items (exit_search_mode a') = items a /\
  selected (tree_state (exit_search_mode a')) = selected (tree_state a) /\
  opened (tree_state (exit_search_mode a')) = ∅ /\
  input_mode (exit_search_mode a') = Normal /\
  persistent_state (exit_search_mode a') = persistent_state a /\
  saved_view_items (exit_search_mode a') = None /\
  saved_selection (exit_search_mode a') = None.
Proof.
  intros Hk Hr. destruct (run_nav_keys_frame _ _ _ _ _ _ Hk Hr) as (H1 & H2 & H3 & _).
  split; [reflexivity|].
  unfold enter_search_mode in H1, H2, H3. destruct a; cbn in H1, H2, H3.
  unfold exit_search_mode. destruct a'; cbn in *. subst. cbn. by repeat split.
Qed.

Lemma search_escape_restores_witness :
  let a := AppFixtures.sample_app in
  let ks := [SEdit (chars "s"); SDown; SUp] in
  forallb nav_key ks = true /\
  match run_search_keys chars id Fixtures.sample_fs (enter_search_mode a) ks with
  | Some a' => items (exit_search_mode a') = items a /\
               selected (tree_state (exit_search_mode a')) = selected (tree_state a)
  | None => False
  end.
Proof.
  intros a ks. split; [reflexivity|].
  destruct (run_search_keys chars id Fixtures.sample_fs (enter_search_mode a) ks) as [a'|] eqn:Hr;
    [|vm_compute in Hr; discriminate].
  destruct (search_escape_restores chars id Fixtures.sample_fs a ks a' eq_refl Hr)
    as (_ & Hi & Hs & _). split; assumption.
Defined.

(** *** Moving through the matches *)

Lemma select_search_match_at a p s :
  nth_error (search_matches a) (search_index a) = Some (p, s) ->
  select_search_match a = Some (set_tree_state a (ts_select (tree_state a) [p])).
Proof.
  unfold select_search_match. intros Hn.
  destruct (search_matches a) as [|m ms]; [by destruct (search_index a)|].
  by rewrite Hn.
Qed.

(** [Up] undoes [Down]: both keys select the match at the index they
    reach, and [Down] then [Up] comes back to the match it started on. *)
Theorem search_up_undoes_down lossy lower fs a p s :
  nth_error (search_matches a) (search_index a) = Some (p, s) ->
  exists b c,
    handle_search_key lossy lower fs a SDown = Some b /\
    handle_search_key lossy lower fs b SUp = Some c /\
    search_index c = search_index a /\ search_matches c = search_matches a /\
    selected (tree_state c) = [p].
Proof.
  intros Hn. assert (Hlt : (search_index a < length (search_matches a))%nat)
    by (apply nth_error_Some; congruence).
  destruct (search_matches a) as [|m ms] eqn:Hm; [cbn in Hlt; lia|].
  set (n := length (m :: ms)) in *.
  set (j := ((search_index a + 1) mod n)%nat).
  assert (Hj : (j < n)%nat) by (apply Nat.mod_upper_bound; unfold n; cbn; lia).
  destruct (nth_error (m :: ms) j) as [[p' s']|] eqn:Hnj;
    [|apply nth_error_None in Hnj; lia].
  set (a1 := set_search_index a j).
  set (b := set_tree_state a1 (ts_select (tree_state a1) [p'])).
  assert (Hb : handle_search_key lossy lower fs a SDown = Some b).
  { cbn [handle_search_key]. rewrite Hm. apply (select_search_match_at a1 p' s').
    unfold a1, set_search_index. cbn [search_matches search_index]. rewrite Hm. exact Hnj. }
  assert (Hbm : search_matches b = m :: ms) by (rewrite <- Hm; reflexivity).
  assert (Hbi : search_index b = j) by reflexivity.
  assert (Hback : match j with O => (n - 1)%nat | S i => i end = search_index a).
  { unfold j. fold n. destruct (decide ((search_index a + 1)%nat = n)) as [E|E].
    - rewrite E, Nat.Div0.mod_same. lia.
    - rewrite Nat.mod_small by lia. rewrite Nat.add_1_r. done. }
  set (b1 := set_search_index b (search_index a)).
  exists b, (set_tree_state b1 (ts_select (tree_state b1) [p])).
  split; [exact Hb|]. split.
  - cbn [handle_search_key]. rewrite Hbm, Hbi. fold n. rewrite Hback.
    apply (select_search_match_at b1 p s).
    unfold b1, set_search_index. cbn [search_matches search_index]. rewrite Hbm. exact Hn.
  - split; [reflexivity|]. split; [exact Hbm|reflexivity].
Qed.

Lemma search_up_undoes_down_witness :
  let a := set_search_matches AppFixtures.sample_app [(["src"], 3%N); (["README.md"], 1%N)] in
  nth_error (search_matches a) (search_index a) = Some (["src"], 3%N) /\
  exists b c,
    handle_search_key chars id Fixtures.sample_fs a SDown = Some b /\
    handle_search_key chars id Fixtures.sample_fs b SUp = Some c /\
    search_index c = search_index a /\ search_matches c = search_matches a /\
    selected (tree_state c) = [["src"]].
Proof.
  intros a. split; [reflexivity|].
  exact (search_up_undoes_down chars id Fixtures.sample_fs a ["src"] 3%N eq_refl).
Defined.

(** *** What search looks at *)

Lemma collect_recursive_item_nodes :
  forall it, collect_recursive_item it = map item_id (item_nodes it).
Proof.
  fix IH 1. intros [id t ch]. cbn. f_equal.
  revert ch. fix IHl 1. intros [|c ch]; cbn; [done|].
  rewrite map_app, IH, IHl. done.
Qed.

Lemma collect_recursive_nodes l : collect_recursive l = map item_id (forest_nodes l).
Proof.
  unfold collect_recursive, forest_nodes. induction l as [|it l IHl]; cbn; [done|].
  rewrite map_app, collect_recursive_item_nodes, IHl. done.
Qed.

(** Search only looks at the paths in [C], the cache being a part of it. *)
Definition search_within (C : list path) (a : App) : Prop :=
  (forall p, In p (search_paths_cache a) -> In p C) /\
  (forall m, In m (search_matches a) -> In m.1 C).

Lemma in_update_search_matches lossy lower q cache m :
  In m (Fuzzy.update_search_matches lossy lower q cache) -> In m.1 cache.
Proof.
  unfold Fuzzy.update_search_matches. destruct q; [done|].
  intros Hin. destruct m as [p s].
  apply in_take, in_sort_by, in_score_candidates in Hin. exact (proj1 Hin).
Qed.

Lemma select_search_match_keeps a a' :
  select_search_match a = Some a' ->
  search_matches a' = search_matches a /\ search_paths_cache a' = search_paths_cache a.
Proof.
  unfold select_search_match. repeat case_match; intros; simplify_eq; [done|].
  by destruct a.
Qed.

Lemma handle_search_key_within lossy lower fs C a k a' :
  search_within C a -> handle_search_key lossy lower fs a k = Some a' -> search_within C a'.
Proof.
  intros Hw. pose proof Hw as [Hc Hm]. destruct k as [| | | |q]; cbn [handle_search_key].
  - intros [= <-]. pose proof (exit_search_mode_cleared a) as [Hn Hcache].
    split; [rewrite Hcache; done|rewrite Hn; done].
  - intros Hj. destruct (jump_ok _ _ _ Hj) as (_ & Hn & Hcache).
    split; [rewrite Hcache; done|rewrite Hn; done].
  - destruct (search_matches a); [intros [= <-]; exact Hw|].
    intros [H1 H2]%select_search_match_keeps. split; [rewrite H2; exact (proj1 Hw)|rewrite H1; exact (proj2 Hw)].
  - destruct (search_matches a); [intros [= <-]; exact Hw|].
    intros [H1 H2]%select_search_match_keeps. split; [rewrite H2; exact (proj1 Hw)|rewrite H1; exact (proj2 Hw)].
  - intros [H1 H2]%select_search_match_keeps. unfold search_within. rewrite H1, H2. clear H1 H2.
    unfold update_search_matches. destruct q as [|c q].
    + destruct a; cbn in *. destruct saved_view_items0; cbn; split; done.
    + split; intros x Hin; apply Hc; [exact Hin|].
      exact (in_update_search_matches lossy lower (c :: q) (search_paths_cache a) x Hin).
Qed.

Lemma item_forall_ind (P : TreeItem -> Prop) :
  (forall id t ch, Forall P ch -> P (Node id t ch)) -> forall it, P it.
Proof.
  intros H. fix IH 1. intros [id t ch]. apply H.
  revert ch. fix IHl 1. intros [|c ch]; constructor; [apply IH|apply IHl].
Qed.

(** Every node of a tree is its root or a child of one of its nodes. *)
Lemma node_parent t x : In x (item_nodes t) ->
  x = t \/ exists y, In y (item_nodes t) /\ In x (item_children y).
Proof.
  revert x. induction t as [id l ch IH] using item_forall_ind. intros x Hx.
  apply item_nodes_cases in Hx as [->|(c & Hc & Hxc)]; [by left|right].
  cbn [item_children] in Hc.
  destruct (proj1 (List.Forall_forall _ _) IH c Hc x Hxc) as [->|(y & Hy & Hxy)].
  - exists (Node id l ch). split; [by left|exact Hc].
  - exists y. split; [|exact Hxy]. cbn. right. apply in_flat_map. eauto.
Qed.

(** Search never reads the disk: every match is an item the tree had
    loaded when search began.  For a tree built by [build_tree], a match
    is thus an entry of the root or of an expanded directory: the
    contents of a collapsed directory are never found. *)
Theorem search_finds_only_loaded lossy lower fs a ks a' E St h sizes :
  build_tree fs (root_path a) E St h sizes = Ok (items a) ->
  run_search_keys lossy lower fs (enter_search_mode a) ks = Some a' ->
  forall m, In m (search_matches a') ->
    In m.1 (map item_id (forest_nodes (items a))) /\
    (In m.1 (listing fs (root_path a)) \/
     exists d, d ∈ E /\ is_dir fs d = true /\ In m.1 (listing fs d)).
Proof.
  intros Hb Hr.
  set (C := map item_id (forest_nodes (items a))).
  assert (Hw : search_within C a').
  { assert (H0 : search_within C (enter_search_mode a)).
    { unfold enter_search_mode, search_within, collect_paths_from_items. destruct a; cbn.
      rewrite collect_recursive_nodes. by split. }
    revert Hr H0. generalize (enter_search_mode a) as b. revert a'.
    induction ks as [|k ks IH]; intros a' b; cbn; [by intros [= <-]|].
    destruct (handle_search_key lossy lower fs b k) as [b1|] eqn:Hh; [|done].
    intros Hr Hb0. exact (IH a' b1 Hr (handle_search_key_within _ _ _ _ _ _ _ Hb0 Hh)). }
  intros m Hm. pose proof (proj2 Hw m Hm) as HC. split; [exact HC|].
  unfold C in HC. apply in_map_iff in HC as (x & Hx & Hin).
  unfold forest_nodes in Hin. apply in_flat_map in Hin as (t & Ht & Hxt).
  destruct (children_listed _ _ _ _ _ _ _ Hb) as [Htop Hkids].
  apply node_parent in Hxt as [->|(y & Hy & Hxy)].
  - left. rewrite <- Hx. exact (proj1 (Htop t Ht)).
  - right. assert (Hy' : In y (forest_nodes (items a))) by (apply in_flat_map; eauto).
    clear Hy. rename Hy' into Hy.
    destruct (Hkids y x Hy Hxy) as [Hl _].
    assert (Hne : item_children y <> []) by (intros E'; rewrite E' in Hxy; done).
    destruct (children_only_expanded _ _ _ _ _ _ _ Hb y Hy Hne) as [Hd He].
    exists (item_id y). rewrite <- Hx. by repeat split.
Qed.

Lemma search_finds_only_loaded_witness :
  let a := AppFixtures.sample_app in
  build_tree Fixtures.sample_fs (root_path a) ∅ ∅ false None = Ok (items a) /\
  exists a', run_search_keys chars id Fixtures.sample_fs (enter_search_mode a)
               [SEdit (chars "s")] = Some a' /\
    search_matches a' <> [] /\
    forall m, In m (search_matches a') ->
      In m.1 (map item_id (forest_nodes (items a))) /\
      (In m.1 (listing Fixtures.sample_fs (root_path a)) \/
       exists d, d ∈ (∅ : gset path) /\ is_dir Fixtures.sample_fs d = true /\
                 In m.1 (listing Fixtures.sample_fs d)).
Proof.
  intros a.
  assert (Hb : build_tree Fixtures.sample_fs (root_path a) ∅ ∅ false None = Ok (items a))
    by (vm_compute; reflexivity).
  split; [exact Hb|].
  destruct (run_search_keys chars id Fixtures.sample_fs (enter_search_mode a)
              [SEdit (chars "s")]) as [a'|] eqn:Hr; [|vm_compute in Hr; discriminate].
  exists a'. split; [reflexivity|]. split.
  - vm_compute in Hr. injection Hr as <-. discriminate.
  - exact (search_finds_only_loaded chars id Fixtures.sample_fs a [SEdit (chars "s")] a'
             ∅ ∅ false None Hb Hr).
Defined.

End SearchFacts.

(** ** Views, bookmarks and quitting *)
Module AppFacts.
Import State Tree App AppMore StateProofs.

Lemma builder_same fs a b :
  view_mode b = view_mode a -> root_path b = root_path a ->
  persistent_state b = persistent_state a -> dir_sizes b = dir_sizes a ->
  builder fs b = builder fs a.
Proof. unfold builder. intros -> -> -> ->. reflexivity. Qed.

Lemma rebuild_tree_persistent fs a : persistent_state (rebuild_tree fs a) = persistent_state a.
Proof. unfold rebuild_tree. by destruct (builder fs a). Qed.

Lemma leave_then_restore fs v a :
  view_mode a = TreeView ->
  let b := restore_tree_view fs (leave_for_view fs v a) in
  view_mode b = TreeView /\ selected (tree_state b) = selected (tree_state a) /\
  opened (tree_state b) = ∅ /\
  items b = match builder fs a with Ok it => it | Err _ => items a end /\
  persistent_state b = persistent_state a /\
  saved_view_items b = None /\ saved_selection b = None.
Proof.
  intros Hv. destruct a; cbn in Hv; subst.
  unfold restore_tree_view, leave_for_view, rebuild_tree, builder. cbn.
  repeat (case_match; cbn in *; simplify_eq); by repeat split.
Qed.

(** Pressing the key of a list view twice from the tree view ([S] for
    starred, [B] for bookmarks, [r] for recent) comes back to the tree with
    the selection and the persistent state as they were and the forest
    rebuilt (kept if the builder fails); the widget's opened set is fresh,
    though, so every node is shown closed. *)
Theorem view_round_trip fs a sw :
  view_mode a = TreeView ->
  In sw [toggle_view_mode; switch_to_bookmarks_view; switch_to_recent_view] ->
  let b := sw fs (sw fs a) in
  view_mode b = TreeView /\ selected (tree_state b) = selected (tree_state a) /\
  opened (tree_state b) = ∅ /\
  items b = match builder fs a with Ok it => it | Err _ => items a end /\
  persistent_state b = persistent_state a /\
  saved_view_items b = None /\ saved_selection b = None.
Proof.
  intros Hv Hsw.
  assert (Hl : exists v, sw fs a = leave_for_view fs v a /\
                 forall c, view_mode c = v -> sw fs c = restore_tree_view fs c).
  { destruct Hsw as [<-|[<-|[<-|[]]]];
      unfold toggle_view_mode, switch_to_bookmarks_view, switch_to_recent_view; rewrite Hv;
      [exists Starred|exists Bookmarks|exists Recent]; (split; [reflexivity|]);
      intros c ->; reflexivity. }
  destruct Hl as (v & Ha & Hc). cbv zeta. rewrite Ha, Hc.
  - exact (leave_then_restore fs v a Hv).
  - unfold leave_for_view, rebuild_tree. destruct (builder _ _); reflexivity.
Qed.

Lemma view_round_trip_witness :
  let a := AppFixtures.sample_app in
  view_mode a = TreeView /\
  In switch_to_bookmarks_view [toggle_view_mode; switch_to_bookmarks_view; switch_to_recent_view] /\
  selected (tree_state (switch_to_bookmarks_view Fixtures.sample_fs
                          (switch_to_bookmarks_view Fixtures.sample_fs a))) =
  selected (tree_state a).
Proof.
  intros a. split; [reflexivity|]. split; [right; left; reflexivity|].
  exact (proj1 (proj2 (view_round_trip Fixtures.sample_fs a switch_to_bookmarks_view
                         eq_refl (or_intror (or_introl eq_refl))))).
Defined.

(** Going from the bookmarks view straight to the recent view saves the
    bookmarks view over the saved tree: pressing [r] twice from the
    bookmarks view returns to the tree with the selection the bookmarks
    view had, and the tree's saved selection is gone. *)
Theorem bookmarks_to_recent_loses_tree_selection fs b :
  view_mode b = Bookmarks ->
  let c := switch_to_recent_view fs (switch_to_recent_view fs b) in
  view_mode c = TreeView /\ selected (tree_state c) = selected (tree_state b) /\
  saved_selection c = None /\
  items c = match builder fs (set_view_mode b TreeView) with Ok it => it | Err _ => items b end.
Proof.
  intros Hv. destruct b; cbn in Hv; subst.
  unfold switch_to_recent_view, restore_tree_view, leave_for_view, rebuild_tree, builder. cbn.
  repeat (case_match; cbn); simplify_eq; by repeat split.
Qed.

Lemma bookmarks_to_recent_loses_tree_selection_witness :
  let b := set_saved_selection (set_view_mode AppFixtures.sample_app Bookmarks) (Some [["A"]]) in
  view_mode b = Bookmarks /\
  selected (tree_state (switch_to_recent_view Fixtures.sample_fs
                          (switch_to_recent_view Fixtures.sample_fs b))) = [["src"]] /\
  saved_selection b = Some [["A"]].
Proof.
  intros b. split; [reflexivity|]. split; [|reflexivity].
  exact (proj1 (proj2 (bookmarks_to_recent_loses_tree_selection Fixtures.sample_fs b eq_refl))).
Defined.

Lemma get_bookmark_add_other st p q lbl now :
  q <> p -> get_bookmark (add_bookmark st p lbl now) q = get_bookmark st q.
Proof.
  intros Hne. unfold get_bookmark, add_bookmark. cbn [bookmarks].
  induction (bookmarks st) as [|b bs IH].
  - cbn. rewrite bool_decide_false by congruence. done.
  - rewrite filter_cons. case_decide as Hb.
    + cbn [app find]. case_bool_decide; [done|exact IH].
    + cbn [find]. rewrite bool_decide_false by congruence. exact IH.
Qed.

Lemma get_bookmark_add_same st p lbl now :
  get_bookmark (add_bookmark st p lbl now) p = Some (mkBookmark p lbl (epoch_secs now)).
Proof.
  unfold get_bookmark, add_bookmark. cbn [bookmarks].
  induction (bookmarks st) as [|b bs IH].
  - cbn. by rewrite bool_decide_true.
  - rewrite filter_cons. case_decide as Hb; [|exact IH].
    cbn [app find]. rewrite bool_decide_false by done. exact IH.
Qed.

(** [b] on a directory opens the label editor on the bookmark's current
    label ("" if there is none); [Enter] then stores the bookmark under
    that label with a fresh timestamp and leaves every other path's
    bookmark alone, while [Esc] leaves the persistent state as it was. *)
Theorem bookmark_label_round_trip fs now a s :
  get_selected_path a = Some s -> is_dir fs s = true ->
  let b := add_or_edit_bookmark fs a in
  let lbl := match get_bookmark (persistent_state a) s with
             | Some bm => State.label bm | None => "" end in
  let c := confirm_bookmark_label fs now b in
  input_mode b = BookmarkLabel /\ bookmark_input b = lbl /\
  get_bookmark (persistent_state c) s = Some (mkBookmark s lbl (epoch_secs now)) /\
  (forall q, q <> s -> get_bookmark (persistent_state c) q = get_bookmark (persistent_state a) q) /\
  input_mode c = Normal /\ bookmark_path c = None /\
  persistent_state (cancel_bookmark_label b) = persistent_state a.
Proof.
  intros Hs Hd. cbv zeta. unfold add_or_edit_bookmark. rewrite Hs, Hd.
  unfold confirm_bookmark_label. cbn [bookmark_path set_input_mode set_bookmark_input].
  destruct a; cbn -[rebuild_tree add_bookmark get_bookmark].
  rewrite !rebuild_tree_persistent. cbn [persistent_state set_persistent_state].
  split; [reflexivity|]. split; [reflexivity|]. split; [apply get_bookmark_add_same|].
  split; [intros q Hq; by apply get_bookmark_add_other|].
  split; [reflexivity|]. split; [|reflexivity].
  unfold rebuild_tree. by destruct (builder _ _).
Qed.

Lemma bookmark_label_round_trip_witness :
  let a := AppFixtures.sample_app in
  get_selected_path a = Some ["src"] /\ is_dir Fixtures.sample_fs ["src"] = true /\
  get_bookmark (persistent_state (confirm_bookmark_label Fixtures.sample_fs (Some 7)
                  (add_or_edit_bookmark Fixtures.sample_fs a))) ["src"] =
  Some (mkBookmark ["src"] "" 7).
Proof.
  intros a. split; [reflexivity|]. split; [reflexivity|].
  exact (proj1 (proj2 (proj2 (bookmark_label_round_trip Fixtures.sample_fs (Some 7) a ["src"]
                                eq_refl eq_refl)))).
Defined.

(** [Enter] on a directory ends the session with that directory: it goes
    to the front of the recent list, and [main] prints it (and only it)
    once the terminal is restored, whether or not the state can be saved;
    the exit status is 0 exactly when saving succeeds. *)
Theorem select_and_quit_prints fs a s env :
  get_selected_path a = Some s -> is_dir fs s = true ->
  let b := select_and_quit fs a in
  let ex := Shutdown.main_exit (Shutdown.run_exit (Ok tt) env (persistent_state b)) (Ok tt)
              (selected_dir b) in
  should_quit b = true /\ head (recent_dirs (persistent_state b)) = Some s /\
  Shutdown.stdout_lines ex = [s] /\
  (Shutdown.exit_status ex = 0 <-> Shutdown.save env (persistent_state b) = Ok tt).
Proof.
  intros Hs Hd. cbv zeta. unfold select_and_quit. rewrite Hs, Hd.
  cbn [should_quit selected_dir persistent_state set_should_quit set_selected_dir
        set_persistent_state].
  split; [reflexivity|]. split.
  - unfold add_recent. cbv zeta. cbn [recent_dirs].
    rewrite pop_back_while_take by lia. reflexivity.
  - unfold Shutdown.main_exit, Shutdown.run_exit, Shutdown.terminate.
    destruct (Shutdown.save _ _) as [[]|e]; cbn; split; try done; split; done.
Qed.

Lemma select_and_quit_prints_witness :
  let a := AppFixtures.sample_app in
  get_selected_path a = Some ["src"] /\ is_dir Fixtures.sample_fs ["src"] = true /\
  Shutdown.stdout_lines
    (Shutdown.main_exit
       (Shutdown.run_exit (Ok tt) Shutdown.readonly_env
          (persistent_state (select_and_quit Fixtures.sample_fs a))) (Ok tt)
       (selected_dir (select_and_quit Fixtures.sample_fs a))) = [["src"]].
Proof.
  intros a. split; [reflexivity|]. split; [reflexivity|].
  exact (proj1 (proj2 (proj2 (select_and_quit_prints Fixtures.sample_fs a ["src"]
                                Shutdown.readonly_env eq_refl eq_refl)))).
Defined.

End AppFacts.

(** ** Jumping to a search result, the size pipeline, start-up *)
Module AppFacts2.
Import State Tree App AppMore AppProofs TreeFacts.

Ltac app_simpl :=
  cbn [tree_state items root_path persistent_state should_quit selected_dir view_mode
       input_mode show_help search_matches search_index search_paths_cache bookmark_input
       bookmark_path dir_sizes size_worker saved_view_items saved_selection
       set_tree_state set_items set_root_path set_persistent_state set_should_quit
       set_selected_dir set_view_mode set_input_mode set_show_help set_search_matches
       set_search_index set_search_paths_cache set_bookmark_input set_bookmark_path
       set_dir_sizes set_size_worker set_saved_view_items set_saved_selection
       selected opened last_identifiers ts_select ts_select_first
       expanded_dirs starred_dirs set_expanded] in *.

Lemma rebuild_tree_eq fs a :
  rebuild_tree fs a = set_items a (match builder fs a with Ok it => it | Err _ => items a end).
Proof. unfold rebuild_tree. destruct (builder fs a); [done|]. by destruct a. Qed.

(** *** The selection path of a search result *)

Lemma below_root_iff (root p : path) i :
  root `prefix_of` p -> (i <= length p)%nat ->
  (root `prefix_of` take i p /\ take i p <> root) <-> (length root < i)%nat.
Proof.
  intros [k ->] Hi. rewrite length_app in Hi. split.
  - intros [Hp Hne]. apply prefix_length in Hp. rewrite length_take, length_app in Hp.
    destruct (decide (length root = i)) as [<-|]; [|lia].
    exfalso. apply Hne. apply take_app_length.
  - intros Hlt. rewrite take_app_ge by lia. split; [by eexists|].
    intros E. apply (f_equal length) in E. rewrite length_app, length_take in E. lia.
Qed.

Lemma ancestors_below_snoc f (root l : path) x :
  ancestors_below (S f) root (l ++ [x]) =
  (if bool_decide (root `prefix_of` l ++ [x] /\ l ++ [x] <> root) then [l ++ [x]] else []) ++
  ancestors_below f root l.
Proof. cbn [ancestors_below]. rewrite removelast_last. by destruct l. Qed.

Lemma ancestors_below_take (root p : path) n fuel :
  root `prefix_of` p -> (n <= length p)%nat -> (n < fuel)%nat ->
  ancestors_below fuel root (take n p) =
  rev (map (fun i => take i p) (seq (S (length root)) (n - length root))).
Proof.
  intros Hpre. revert fuel. induction n as [|m IH]; intros fuel Hn Hf;
    (destruct fuel as [|f]; [lia|]).
  - rewrite take_0. cbn [ancestors_below]. rewrite bool_decide_false; [reflexivity|].
    intros [Hp Hne]. apply Hne. symmetry. by apply prefix_nil_inv.
  - destruct (lookup_lt_is_Some_2 p m) as [x Hx]; [lia|].
    rewrite (take_S_r p m x Hx), ancestors_below_snoc, IH by lia.
    rewrite <- (take_S_r p m x Hx).
    destruct (decide (length root <= m)%nat) as [Hle|Hgt].
    + rewrite bool_decide_true by (apply below_root_iff; [done|lia|lia]).
      replace (S m - length root)%nat with (S (m - length root)) by lia.
      rewrite seq_S, map_app, rev_app_distr. cbn.
      by replace (S (length root + (m - length root))) with (S m) by lia.
    + rewrite bool_decide_false by (rewrite below_root_iff; [lia|done|lia]).
      replace (S m - length root)%nat with 0%nat by lia.
      replace (m - length root)%nat with 0%nat by lia. reflexivity.
Qed.

Lemma selection_path_eq (root p : path) :
  root `prefix_of` p ->
  selection_path root p = map (fun i => take i p) (seq (S (length root)) (length p - length root)).
Proof.
  intros Hpre. unfold selection_path.
  pose proof (ancestors_below_take root p (length p) (S (length p)) Hpre (le_n _)
                (Nat.lt_succ_diag_r _)) as E.
  rewrite (take_ge p (length p)) in E by lia. by rewrite E, rev_involutive.
Qed.

Lemma foldl_union_elem (E : gset path) (L : list path) q :
  q ∈ foldl (fun e q => {[ q ]} ∪ e) E L <-> q ∈ E \/ q ∈ L.
Proof.
  revert E. induction L as [|r L IH]; intros E; cbn.
  - rewrite elem_of_nil. tauto.
  - rewrite IH, elem_of_cons. set_solver.
Qed.

Lemma opened_set_fold (E : gset path) id :
  id ∈ opened (set_fold (fun q ts => ts_open ts [q]) tree_state_default E) <->
  exists q, id = [q] /\ q ∈ E.
Proof.
  unfold set_fold; cbn [compose].
  setoid_rewrite <- (elem_of_elements E).
  induction (elements E) as [|r L IH]; cbn [foldr].
  - cbn. set_solver.
  - unfold ts_open. cbn [opened]. rewrite elem_of_union, elem_of_singleton, IH.
    setoid_rewrite elem_of_cons. naive_solver.
Qed.

(** [Enter] on a search result whose path lies under the root never
    panics; it selects the chain of identifiers from the root's child down
    to the result, records every directory strictly between the root and
    the result as expanded (on top of those already expanded), opens in
    the widget exactly the one-element identifiers of the expanded
    directories, and leaves search mode with the saved view dropped. *)
Theorem jump_selects_and_expands fs a p s :
  nth_error (search_matches a) (search_index a) = Some (p, s) ->
  root_path a `prefix_of` p ->
  match jump_to_search_result fs a with
  | Some a' =>
      selected (tree_state a') =
        map (fun i => take i p) (seq (S (length (root_path a))) (length p - length (root_path a))) /\
      (forall q, q ∈ expanded_dirs (persistent_state a') <->
         q ∈ expanded_dirs (persistent_state a) \/
         exists i, (length (root_path a) < i < length p)%nat /\ q = take i p) /\
      (forall id, id ∈ opened (tree_state a') <->
         exists q, id = [q] /\ q ∈ expanded_dirs (persistent_state a')) /\
      input_mode a' = Normal /\ search_matches a' = [] /\
      saved_view_items a' = None /\ saved_selection a' = None
  | None => False
  end.
Proof.
  intros Hn Hpre. unfold jump_to_search_result.
  destruct (search_matches a) as [|m ms] eqn:Hm;
    [destruct (search_index a); discriminate|].
  rewrite Hn. cbv zeta.
  assert (Hfix : forall a2 : App, root_path a2 = root_path a ->
            persistent_state a2 = persistent_state a -> saved_view_items a2 = None ->
            saved_selection a2 = None ->
            let sel := selection_path (root_path a2) p in
            let st := persistent_state a2 in
            let e := foldl (fun e q => {[ q ]} ∪ e) (expanded_dirs st)
                       (take (length sel - 1) sel) in
            let a3 := rebuild_tree fs (set_persistent_state a2 (set_expanded st e)) in
            let ts := set_fold (fun q ts => ts_open ts [q]) tree_state_default e in
            let a' := set_search_paths_cache (set_search_index (set_search_matches
                        (set_input_mode (set_tree_state a3 (ts_select ts sel)) Normal) [])
                        0%nat) [] in
            selected (tree_state a') =
              map (fun i => take i p) (seq (S (length (root_path a))) (length p - length (root_path a))) /\
            (forall q, q ∈ expanded_dirs (persistent_state a') <->
               q ∈ expanded_dirs (persistent_state a) \/
               exists i, (length (root_path a) < i < length p)%nat /\ q = take i p) /\
            (forall id, id ∈ opened (tree_state a') <->
               exists q, id = [q] /\ q ∈ expanded_dirs (persistent_state a')) /\
            input_mode a' = Normal /\ search_matches a' = [] /\
            saved_view_items a' = None /\ saved_selection a' = None).
  { intros a2 Hr Hp Hv Hs. cbv zeta. rewrite rebuild_tree_eq. app_simpl.
    rewrite Hr, Hp, Hv, Hs, selection_path_eq by exact Hpre.
    split; [reflexivity|]. split; [|split; [|done]].
    - intros q. rewrite foldl_union_elem, length_map, length_seq, firstn_map, take_seq.
      rewrite list_elem_of_In, in_map_iff. setoid_rewrite in_seq.
      split; (intros [Hq|Hq]; [by left|right]).
      + destruct Hq as (i & <- & Hi). exists i. split; [lia|done].
      + destruct Hq as (i & Hi & ->). exists i. split; [done|lia].
    - intros id. apply opened_set_fold. }
  destruct (saved_view_items a) eqn:Hsv; apply Hfix; app_simpl; done.
Qed.

Lemma jump_selects_and_expands_witness :
  let a := set_search_matches AppFixtures.sample_app [(["src"; "main.rs"], 3)] in
  nth_error (search_matches a) (search_index a) = Some (["src"; "main.rs"], 3) /\
  root_path a `prefix_of` ["src"; "main.rs"] /\
  match jump_to_search_result Fixtures.sample_fs a with
  | Some a' => selected (tree_state a') = [["src"]; ["src"; "main.rs"]]
  | None => False
  end.
Proof.
  intros a. split; [reflexivity|]. split; [by exists ["src"; "main.rs"]|].
  pose proof (jump_selects_and_expands Fixtures.sample_fs a ["src"; "main.rs"] 3
                eq_refl (prefix_nil _)) as H.
  destruct (jump_to_search_result Fixtures.sample_fs a) as [a'|]; [|exact H].
  exact (proj1 H).
Defined.

(** *** The size pipeline *)

(** The pipeline to the size worker: no directory is twice in the request
    and result queues together, each one there has an entry in the cache,
    and neither channel holds more than its capacity. *)
Definition size_ok (ds : SizeCache) (w : SizeWorker) : Prop :=
  NoDup (request_q w ++ map fst (result_q w)) /\
  (forall p, p ∈ request_q w ++ map fst (result_q w) -> is_Some (ds !! p)) /\
  (length (request_q w) <= channel_capacity)%nat /\
  (length (result_q w) <= channel_capacity)%nat.

Definition app_size_ok (a : App) : Prop := size_ok (dir_sizes a) (size_worker a).

Lemma size_ok_request ds w p :
  size_ok ds w -> ds !! p = None -> size_ok (<[ p := None ]> ds) (request_size w p).
Proof.
  intros (Hnd & Hin & Hl1 & Hl2) Hp.
  assert (Hkeep : forall q, is_Some (ds !! q) -> is_Some (<[ p := None ]> ds !! q)).
  { intros q Hq. apply lookup_insert_is_Some'. by right. }
  unfold request_size. destruct (Nat.ltb_spec (length (request_q w)) channel_capacity) as [Hlt|];
    unfold size_ok; simpl.
  - assert (Hnot : p ∉ request_q w ++ map fst (result_q w)).
    { intros Hm. destruct (Hin p Hm) as [v Hv]. congruence. }
    split; [|split; [|split]].
    + rewrite <- app_assoc. cbn [app].
      rewrite (Permutation_app_comm (request_q w) (p :: _)). cbn [app].
      apply NoDup_cons. split.
      * rewrite elem_of_app in Hnot |- *. tauto.
      * by rewrite (Permutation_app_comm _ (request_q w)).
    + intros q Hq. rewrite <- app_assoc, elem_of_app, elem_of_app, list_elem_of_singleton in Hq.
      destruct Hq as [Hq|[->|Hq]].
      * apply Hkeep, Hin, elem_of_app. by left.
      * apply lookup_insert_is_Some'. by left.
      * apply Hkeep, Hin, elem_of_app. by right.
    + rewrite length_app. cbn. lia.
    + exact Hl2.
  - split; [exact Hnd|]. split; [|done]. intros q Hq. by apply Hkeep, Hin.
Qed.

Lemma size_ok_worker_step ds w n : size_ok ds w -> size_ok ds (worker_step w n).
Proof.
  intros H. unfold worker_step. destruct (request_q w) as [|q rest] eqn:Eq; [exact H|].
  destruct (Nat.ltb_spec (length (result_q w)) channel_capacity) as [Hlt|]; [|exact H].
  destruct H as (Hnd & Hin & Hl1 & Hl2). rewrite Eq in Hnd, Hin, Hl1.
  unfold size_ok; simpl. rewrite map_app. cbn [map fst].
  assert (Hperm : rest ++ map fst (result_q w) ++ [q] ≡ₚ (q :: rest) ++ map fst (result_q w)).
  { cbn [app]. rewrite app_assoc. rewrite Permutation_app_comm. reflexivity. }
  split; [|split; [|split]].
  - by rewrite Hperm.
  - intros r Hr. apply Hin. by rewrite <- Hperm.
  - cbn in Hl1. lia.
  - rewrite length_app. cbn. lia.
Qed.

Lemma size_ok_poll ds w :
  size_ok ds w -> size_ok (poll_results w ds).2 (poll_results w ds).1.
Proof.
  intros (Hnd & Hin & Hl1 & Hl2). unfold poll_results, size_ok. simpl.
  rewrite app_nil_r. split; [|split; [|split]].
  - exact (proj1 (proj1 (NoDup_app _ _) Hnd)).
  - intros q Hq. apply foldl_insert_is_Some, Hin, elem_of_app. by left.
  - exact Hl1.
  - cbn. lia.
Qed.

Ltac size_update x := let H := fresh in intros H; destruct x; exact H.

Lemma app_size_ok_tree_state a v : app_size_ok a -> app_size_ok (set_tree_state a v).
Proof. size_update a. Qed.
Lemma app_size_ok_items a v : app_size_ok a -> app_size_ok (set_items a v).
Proof. size_update a. Qed.
Lemma app_size_ok_persistent_state a v : app_size_ok a -> app_size_ok (set_persistent_state a v).
Proof. size_update a. Qed.
Lemma app_size_ok_input_mode a v : app_size_ok a -> app_size_ok (set_input_mode a v).
Proof. size_update a. Qed.
Lemma app_size_ok_search_matches a v : app_size_ok a -> app_size_ok (set_search_matches a v).
Proof. size_update a. Qed.
Lemma app_size_ok_search_index a v : app_size_ok a -> app_size_ok (set_search_index a v).
Proof. size_update a. Qed.
Lemma app_size_ok_search_paths_cache a v :
  app_size_ok a -> app_size_ok (set_search_paths_cache a v).
Proof. size_update a. Qed.
Lemma app_size_ok_bookmark_input a v : app_size_ok a -> app_size_ok (set_bookmark_input a v).
Proof. size_update a. Qed.
Lemma app_size_ok_bookmark_path a v : app_size_ok a -> app_size_ok (set_bookmark_path a v).
Proof. size_update a. Qed.
Lemma app_size_ok_saved_view_items a v :
  app_size_ok a -> app_size_ok (set_saved_view_items a v).
Proof. size_update a. Qed.
Lemma app_size_ok_saved_selection a v :
  app_size_ok a -> app_size_ok (set_saved_selection a v).
Proof. size_update a. Qed.

Lemma app_size_ok_rebuild fs a : app_size_ok a -> app_size_ok (rebuild_tree fs a).
Proof.
  unfold app_size_ok. destruct (rebuild_tree_fields fs a) as (-> & -> & _). done.
Qed.

Lemma app_size_ok_request a p : app_size_ok a -> app_size_ok (request_size_for_dir a p).
Proof.
  intros H. unfold request_size_for_dir. destruct (dir_sizes a !! p) eqn:E; [exact H|].
  unfold app_size_ok in *. destruct a; cbn in *. by apply size_ok_request.
Qed.

Create HintDb size_ok.
#[local] Hint Resolve app_size_ok_tree_state app_size_ok_items app_size_ok_persistent_state
  app_size_ok_input_mode app_size_ok_search_matches app_size_ok_search_index
  app_size_ok_search_paths_cache app_size_ok_bookmark_input app_size_ok_bookmark_path
  app_size_ok_saved_view_items app_size_ok_saved_selection app_size_ok_rebuild
  app_size_ok_request : size_ok.

Lemma run_action_size_ok fs now a act a' :
  app_size_ok a -> run_action fs now a act = Some a' -> app_size_ok a'.
Proof.
  intros Ha. destruct act; cbn; intros Hr; simplify_eq;
    unfold expand_selected, collapse_or_parent, toggle_selected, toggle_star,
      toggle_hidden, confirm_bookmark_label, jump_to_search_result, exit_search_mode in *;
    cbv zeta in *; repeat case_match; simplify_eq; auto 20 with size_ok.
Qed.

Lemma step_size_ok fs a ev a' : app_size_ok a -> step fs a ev = Some a' -> app_size_ok a'.
Proof.
  intros Ha. destruct ev as [now act|n|]; cbn; intros Hs.
  - exact (run_action_size_ok fs now a act a' Ha Hs).
  - simplify_eq. unfold app_size_ok in *. destruct a; cbn in *. by apply size_ok_worker_step.
  - simplify_eq. unfold app_size_ok in *. destruct a; cbn in *. by apply size_ok_poll.
Qed.

Lemma run_events_size_ok fs a evs a' :
  app_size_ok a -> run_events fs a evs = Some a' -> app_size_ok a'.
Proof.
  revert a. induction evs as [|ev evs IH]; intros a Ha; cbn.
  - by intros [= <-].
  - destruct (step fs a ev) as [a1|] eqn:Es; [|done].
    intros Hr. exact (IH a1 (step_size_ok fs a ev a1 Ha Es) Hr).
Qed.

(** From any state whose size pipeline is idle, as [App::new] leaves it,
    through any actions, worker iterations and polls, the pipeline stays
    sound: no directory is requested twice while its size is on the way,
    everything on the way is shown as pending or sized in the cache, and
    the channels never exceed their capacity of 100. *)
Theorem size_pipeline_sound fs a evs a' :
  request_q (size_worker a) = [] -> result_q (size_worker a) = [] ->
  run_events fs a evs = Some a' ->
  NoDup (request_q (size_worker a') ++ map fst (result_q (size_worker a'))) /\
  (forall p, p ∈ request_q (size_worker a') ++ map fst (result_q (size_worker a')) ->
     is_Some (dir_sizes a' !! p)) /\
  (length (request_q (size_worker a')) <= channel_capacity)%nat /\
  (length (result_q (size_worker a')) <= channel_capacity)%nat.
Proof.
  intros Hq Hr Hrun. apply (run_events_size_ok fs a evs a'); [|exact Hrun].
  unfold app_size_ok, size_ok. rewrite Hq, Hr. cbn.
  split; [constructor|]. split; [|lia]. intros q Hm. by apply elem_of_nil in Hm.
Qed.

Lemma size_pipeline_sound_witness :
  let a := AppFixtures.sample_app in
  request_q (size_worker a) = [] /\ result_q (size_worker a) = [] /\
  run_events Fixtures.sample_fs a [Act None Expand; WorkerTick 12] =
    Some (set_size_worker (expand_selected Fixtures.sample_fs a)
            (mkSizeWorker [] [(["src"], 12)])) /\
  NoDup ([] ++ map fst [(["src"], 12)]).
Proof.
  intros a. split; [reflexivity|]. split; [reflexivity|]. split; [vm_compute; reflexivity|].
  exact (proj1 (size_pipeline_sound Fixtures.sample_fs a [Act None Expand; WorkerTick 12] _
                  eq_refl eq_refl (eq_refl (Some (set_size_worker (expand_selected Fixtures.sample_fs a)
                                                    (mkSizeWorker [] [(["src"], 12)])))))).
Defined.

(** *** Start-up *)

(** [App::new] fails exactly when the root directory cannot be listed,
    with that error; otherwise the widget opens the one-element
    identifiers of the directories the saved state lists as expanded,
    nothing is selected before the first render, and the size pipeline is
    empty. *)
Theorem app_new_result fs root st :
  match app_new fs root st with
  | Err e => read_dir fs root = Err e
  | Ok a =>
      (forall e, read_dir fs root <> Err e) /\
      (forall id, id ∈ opened (tree_state a) <-> exists q, id = [q] /\ q ∈ expanded_dirs st) /\
      selected (tree_state a) = [] /\ root_path a = root /\ persistent_state a = st /\
      request_q (size_worker a) = [] /\ result_q (size_worker a) = [] /\ dir_sizes a = ∅
  end.
Proof.
  unfold app_new. destruct (build_tree fs root _ _ _ None) as [f|e] eqn:Eb; cbn.
  - split.
    { intros e He.
      apply (build_tree_fails_only_at_root fs root (expanded_dirs st) (starred_dirs st)
               (show_hidden st) None e) in He.
      congruence. }
    split; [apply opened_set_fold|].
    split; [|done]. unfold ts_select_first, ts_select; cbn [selected].
    unfold set_fold; cbn [compose].
    induction (elements (expanded_dirs st)) as [|r L IH]; cbn [foldr]; [done|exact IH].
  - by apply build_tree_fails_only_at_root in Eb.
Qed.

End AppFacts2.
